(** * btbd/proxy: the client library (package [client])

    A shallow embedding of the client side of the proxy protocol: the pod
    table kept by [Proxy], the selection of the best proxy pod, the
    interpretation of the [Proxy-*] response headers and the retrying
    [Do] loop, followed by the properties of the coordination protocol.

    Conventions of the embedding.
    - Go's [int], [int64] and [uint] are integers in [Z]; arithmetic that can
      leave the 64-bit range is wrapped explicitly ([wrap64], [uint_succ]).
    - [map[int]*Pod] is a [gmap Z Pod].  Every [*Pod] is reachable from one
      map entry only, so in-place mutation of a pod is an update of its entry.
    - The mutexes are not modelled: every function is the sequential
      behaviour of its body.
    - Functions of Go's standard library that the package only calls
      (net/url, encoding/json, the HTTP transport and the clock) are the
      operations of the classes [Lib] and [Network].
    - The background pings ([pingProxy], [pingProxies]) run concurrently
      with the callers and are not part of the embedding. *)

From Stdlib Require Import ZArith String Ascii List Lia DecimalString.
From stdpp Require Import gmap strings list fin_maps.

Local Open Scope string_scope.
Local Open Scope Z_scope.

(** ** Machine integers *)

Definition MaxInt64 : Z := 2 ^ 63 - 1.
Definition MaxUint64 : Z := 2 ^ 64 - 1.

(** Conversion of an integer to [int64] (two's complement wrap-around). *)
Definition wrap64 (z : Z) : Z := (z + 2 ^ 63) mod 2 ^ 64 - 2 ^ 63.

(** [attempt++] on a [uint]. *)
Definition uint_succ (n : Z) : Z := (n + 1) mod 2 ^ 64.

Definition uint_range (z : Z) : Prop := 0 <= z <= MaxUint64.

(** ** Package strings *)

(** [strings.Contains(s, substr)]. *)
Fixpoint strings_Contains (s substr : string) : bool :=
  String.prefix substr s ||
  match s with
  | EmptyString => false
  | String _ s' => strings_Contains s' substr
  end.

(** ** Package strconv *)

(** The [Err] field of a [*strconv.NumError]. *)
Inductive NumErr : Type := ErrSyntax | ErrRange.

Definition digit_of (c : ascii) : option Z :=
  let n := Z.of_nat (nat_of_ascii c) in
  if (48 <=? n) && (n <=? 57) then Some (n - 48) else None.

(** The digit loop of [strconv.ParseUint(s, 10, 64)]: the first offending
    character decides between a syntax and a range error. *)
Fixpoint parseUint_loop (s : string) (n : Z) : NumErr + Z :=
  match s with
  | EmptyString => inr n
  | String c s' =>
      match digit_of c with
      | None => inl ErrSyntax
      | Some d =>
          if MaxUint64 / 10 + 1 <=? n then inl ErrRange
          else if MaxUint64 <? n * 10 + d then inl ErrRange
          else parseUint_loop s' (n * 10 + d)
      end
  end.

Definition strconv_ParseUint (s : string) : NumErr + Z :=
  match s with
  | EmptyString => inl ErrSyntax
  | _ => parseUint_loop s 0
  end.

(** [strconv.ParseInt(s, 10, 64)]. *)
Definition strconv_ParseInt (s : string) : NumErr + Z :=
  match s with
  | EmptyString => inl ErrSyntax
  | String c rest =>
      let neg := Ascii.eqb c "-" in
      let digits := if Ascii.eqb c "+" || neg then rest else s in
      match strconv_ParseUint digits with
      | inl e => inl e
      | inr un =>
          if negb neg && (2 ^ 63 <=? un) then inl ErrRange
          else if neg && (2 ^ 63 <? un) then inl ErrRange
          else inr (if neg then - un else un)
      end
  end.

(** [strconv.Itoa]. *)
Definition strconv_Itoa (z : Z) : string := NilZero.string_of_int (Z.to_int z).

(** ** Package net/http: headers

    [http.Header] is a [map[string][]string].  [Get], [Set] and [Del]
    canonicalise their key; every key the client uses is already in canonical
    form, so the canonicalisation is the identity on them and is left out. *)

Abbreviation Header := (gmap string (list string)).

Definition Header_Get (h : Header) (key : string) : string :=
  match h !! key with
  | Some (v :: _) => v
  | _ => EmptyString
  end.

Definition Header_Set (h : Header) (key value : string) : Header :=
  <[key := [value]]> h.

Definition Header_Del (h : Header) (key : string) : Header := delete key h.

(** ** Errors *)

(** What made a header unreadable. *)
Inductive ParseCause : Type :=
| NumError (num : string) (err : NumErr)  (* *strconv.NumError of ParseInt *)
| JSONError (text : string).              (* error of json.Unmarshal *)

(** The error values the client returns. *)
Inductive error : Type :=
| ParsingError (header : string) (cause : ParseCause)
    (* fmt.Errorf("error parsing <header>: %v", err) *)
| TransportError (text : string)
    (* the error of client.Do, [text] being err.Error() *)
| URLError (text : string)
    (* the error of url.Parse or http.NewRequest *)
| ErrorString (text : string).
    (* errors.New(text) *)

(** ** The pod table *)

(** [time.Time], as a reading of the clock; the zero [Time] is [0]. *)
Abbreviation Time := Z (only parsing).

(** Pod represents a proxy pod. *)
Record Pod : Type := mkPod {
  IP : string;        (* the proxy pod's internal IP *)
  Timestamp : Time;   (* local timestamp of the proxy's last response *)
  Counter : Z;        (* pod local count for ordering; -1 marks the pod dead *)
  Free : Z            (* predicted number of requests the pod can support *)
}.

(** [&Pod{IP: ip}]. *)
Definition newPod (ip : string) : Pod :=
  {| IP := ip; Timestamp := 0; Counter := 0; Free := 0 |}.

(** Config provides extra control over the proxy (the fields that the
    modelled functions read). *)
Record Config : Type := mkConfig {
  NumberOfSenders : Z;          (* uint *)
  Attempts : Z;                 (* uint *)
  WebhookCallbackURL : string
}.

(** ** The standard library the client calls

    [net/url] and [encoding/json] are used as they come: a type of parsed
    URLs with its accessors, and the decoding of a JSON object into a
    [map[int]string].  A failing call yields the text of its error.  The
    one fact used about them is that the empty input is not a JSON
    document ("unexpected end of JSON input"). *)
Class Lib : Type := {
  URL : Type;
  url_Parse : string -> string + URL;
  URL_String : URL -> string;
  URL_Scheme : URL -> string;
  URL_Port : URL -> string;
  URL_Path : URL -> string;
  json_Unmarshal : string -> string + gmap Z string;
  json_Unmarshal_empty : exists e, json_Unmarshal EmptyString = inl e
}.

(** Proxy maintains the proxy url and proxy pods. *)
Record Proxy `{Lib} : Type := mkProxy {
  Service : URL;             (* service URL of any proxy, used as a backup *)
  Version : Z;               (* the StatefulSet's resourceVersion *)
  Pods : gmap Z Pod;         (* the known proxy pods *)
  LastPodOrdinal : Z;        (* the last known pod ordinal *)
  ProxyConfig : Config       (* the field [Config] *)
}.

(** The parts of [*http.Request] and [*http.Response] the client touches. *)
Record Request `{Lib} : Type := mkRequest {
  Method : string;
  req_URL : URL;
  req_Header : Header
}.

Record Response : Type := mkResponse {
  StatusCode : Z;
  resp_Header : Header
}.

(** What [Do] reads of its [*http.Client]: whether [client.Transport] is an
    [*http.Transport] with a TLS configuration that skips verification. *)
Record Client : Type := mkClient {
  InsecureSkipVerify : bool
}.

(** The network and the clock: [client.Do(req)] answers with a response
    or fails with an error text, and moves the world on. *)
Class Network `{Lib} : Type := {
  World : Type;
  client_Do : World -> Request -> (string + Response) * World;
  time_Now : World -> Time
}.

(** Early return on error, as in [if err != nil { return ..., err }]. *)
Notation "'try' x ':=' e 'in' k" :=
  (match e with inl err => inl err | inr x => k end)
  (at level 10, x pattern, e at level 100, k at level 200, only parsing).

Section Registry.
Context `{Lib}.

Definition set_Pods (p : Proxy) (pods : gmap Z Pod) : Proxy :=
  {| Service := Service p; Version := Version p; Pods := pods;
     LastPodOrdinal := LastPodOrdinal p; ProxyConfig := ProxyConfig p |}.

(** Format the URL into scheme://ip:port/path. *)
Definition formatURL (p : Proxy) (ip : string) : string :=
  URL_Scheme (Service p) +:+ "://" +:+ ip +:+ ":" +:+
  URL_Port (Service p) +:+ URL_Path (Service p).

(** The loop of [determineBestProxyOrdinal], [n] iterations from [ordinal]
    on.  The loop counter never leaves the [int] range while
    [LastPodOrdinal < MaxInt64]. *)
Fixpoint bestOrdinal_loop (pods : gmap Z Pod) (last : Z) (n : nat)
    (ordinal bestOrdinal bestFree : Z) : Z :=
  match n with
  | O => bestOrdinal
  | S n' =>
      match pods !! ordinal with
      | None => bestOrdinal_loop pods last n' (ordinal + 1) bestOrdinal bestFree
      | Some pod =>
          if Counter pod <? 0
          then bestOrdinal_loop pods last n' (ordinal + 1) bestOrdinal bestFree
          else if (ordinal =? last) && (0 <? bestFree) then bestOrdinal
          else if bestFree <? Free pod
          then bestOrdinal_loop pods last n' (ordinal + 1) ordinal (Free pod)
          else bestOrdinal_loop pods last n' (ordinal + 1) bestOrdinal bestFree
      end
  end.

(** Pick the most free pod that isn't the last one. *)
Definition determineBestProxyOrdinal (p : Proxy) : Z :=
  bestOrdinal_loop (Pods p) (LastPodOrdinal p)
    (Z.to_nat (LastPodOrdinal p + 1)) 0 (-1) (- MaxInt64).

(** Determines the best proxy based on current metrics.  The result is
    the proxy as the call leaves it and what the call returns. *)
Definition determineBestProxy (p : Proxy) : Proxy * (error + Z * URL) :=
  if (size (Pods p) =? 0)%nat then (p, inr (-1, Service p))
  else
    let ordinal := determineBestProxyOrdinal p in
    if ordinal <? 0 then
      (* Clear the pod list and try the host *)
      ({| Service := Service p; Version := Version p; Pods := ∅;
          LastPodOrdinal := 0; ProxyConfig := ProxyConfig p |},
       inr (-1, Service p))
    else
      (* [p.Pods[ordinal]] is there whenever [ordinal] is not negative *)
      match url_Parse (formatURL p (default EmptyString (IP <$> Pods p !! ordinal))) with
      | inl e => (p, inl (URLError e))
      | inr u => (p, inr (ordinal, u))
      end.

(** Parses a proxy list header and returns the IP list. *)
Definition parseProxyList (str : string) : string + gmap Z string :=
  json_Unmarshal str.

(** Returns whether the proxy pod list needs to be updated. *)
Definition shouldUpdateProxyList (p : Proxy) (newProxyList : gmap Z string)
    (version : Z) : bool :=
  if version <=? Version p then false
  else if negb (size (Pods p) =? size newProxyList)%nat then true
  else
    map_fold (fun ordinal ip changed =>
                changed ||
                match Pods p !! ordinal with
                | Some pod => negb (String.eqb ip (IP pod))
                | None => true
                end)
             false newProxyList.

(** Marks a proxy pod as dead. *)
Definition markProxyPodAsDead (p : Proxy) (proxyOrdinal : Z) : Proxy :=
  match Pods p !! proxyOrdinal with
  | None => p
  | Some pod =>
      set_Pods p (<[proxyOrdinal :=
        {| IP := IP pod; Timestamp := Timestamp pod; Counter := -1;
           Free := Free pod |}]> (Pods p))
  end.

(** Updates a specific proxy pod; [now] is the reading of [time.Now()]. *)
Definition updateProxyPod (p : Proxy) (proxyOrdinal proxyCounter proxyFree : Z)
    (now : Time) : Proxy :=
  match Pods p !! proxyOrdinal with
  | None => p
  | Some proxyPod =>
      (* Is this data too old? *)
      if proxyCounter <=? Counter proxyPod then p
      (* Check again *)
      else if proxyCounter <=? Counter proxyPod then p
      else
        set_Pods p (<[proxyOrdinal :=
          {| IP := IP proxyPod; Timestamp := now; Counter := proxyCounter;
             Free := proxyFree |}]> (Pods p))
  end.

(** The headers of a proxy response, parsed. *)
Record ProxyHeaders : Type := mkProxyHeaders {
  newProxyFree : Z;
  proxyOrdinal : Z;
  version : Z;
  proxyCounter : Z;
  proxyStatus : Z;
  newProxyList : gmap Z string
}.

Definition parseIntHeader (header : Header) (key : string) : error + Z :=
  match strconv_ParseInt (Header_Get header key) with
  | inl e => inl (ParsingError key (NumError (Header_Get header key) e))
  | inr v => inr v
  end.

(** [updateKnownProxies], first part: parse data from headers. *)
Definition parseProxyHeaders (header : Header) : error + ProxyHeaders :=
  try free := parseIntHeader header "Proxy-Free" in
  try ordinal := parseIntHeader header "Proxy-Ordinal" in
  try vers := parseIntHeader header "Proxy-Version" in
  try counter := parseIntHeader header "Proxy-Counter" in
  try status := parseIntHeader header "Proxy-Status" in
  match parseProxyList (Header_Get header "Proxy-List") with
  | inl e => inl (ParsingError "Proxy-List" (JSONError e))
  | inr l => inr (mkProxyHeaders free ordinal vers counter status l)
  end.

(** The rebuild of the pod table from a new list: every ordinal of the
    list keeps its pod when the IP is the same and gets a new pod
    otherwise, and the last ordinal is the largest one seen, from 0. *)
Definition rebuildPods (pods : gmap Z Pod) (newProxyList : gmap Z string)
    : gmap Z Pod * Z :=
  map_fold (fun ordinal newIP '(newPods, newLastPodOrdinal) =>
              let newLastPodOrdinal :=
                if newLastPodOrdinal <? ordinal then ordinal
                else newLastPodOrdinal in
              match pods !! ordinal with
              | Some pod =>
                  if String.eqb (IP pod) newIP
                  then (<[ordinal := pod]> newPods, newLastPodOrdinal)
                  else (<[ordinal := newPod newIP]> newPods, newLastPodOrdinal)
              | None => (<[ordinal := newPod newIP]> newPods, newLastPodOrdinal)
              end)
           (∅, 0) newProxyList.

(** [updateKnownProxies], second part: do we need to update the pod list?
    The check of [shouldUpdateProxyList], then the check of the version
    once more before the table is replaced. *)
Definition updateProxyList (p : Proxy) (newProxyList : gmap Z string)
    (version : Z) : Proxy :=
  if shouldUpdateProxyList p newProxyList version then
    (* Check if we are still the latest *)
    if Version p <? version then
      let '(newPods, newLastPodOrdinal) := rebuildPods (Pods p) newProxyList in
      {| Service := Service p; Version := version; Pods := newPods;
         LastPodOrdinal := newLastPodOrdinal; ProxyConfig := ProxyConfig p |}
    else p
  else p.

(** Updates the proxy's dataset: the status of the response and the
    proxy after the update, or the parse error (and no update). *)
Definition updateKnownProxies (p : Proxy) (header : Header) (now : Time)
    : error + Z * Proxy :=
  try h := parseProxyHeaders header in
  let p := updateProxyList p (newProxyList h) (version h) in
  (* Update the pod *)
  let p := updateProxyPod p (proxyOrdinal h) (proxyCounter h) (newProxyFree h) now in
  inr (proxyStatus h, p).

(** These errors occur in edge cases where the last proxy terminates just
    as the client gets a burst of messages. *)
Definition isRetryError (err : string) : bool :=
  strings_Contains err "connection timed out" ||
  strings_Contains err "connection refused".

End Registry.

(** ** The router: [Do] and [Ensure] *)

Section Router.
Context `{Network}.

(** What one call of [Do] works on: the proxy, the caller's request (a
    pointer, so what one attempt writes to it the next one reads), the
    world, and the requests handed to [client.Do] so far, oldest first. *)
Record DoState : Type := mkDoState {
  st_proxy : Proxy;
  st_req : Request;
  st_world : World;
  st_sent : list Request
}.

(** How one pass through the body of the loop of [Do] ends. *)
Inductive Step : Type :=
| Return (result : error + Response) (s : DoState)
| Continue (s : DoState).

(** [atomic.AddInt64(&p.Pods[ordinal].Free, delta)]. *)
Definition addFree (p : Proxy) (ordinal delta : Z) : Proxy :=
  set_Pods p
    (alter (fun pod => {| IP := IP pod; Timestamp := Timestamp pod;
                          Counter := Counter pod;
                          Free := wrap64 (Free pod + delta) |})
           ordinal (Pods p)).

(** Set headers: the first lines of the body after the selection. *)
Definition setProxyHeaders (p : Proxy) (client : Client) (req : Request)
    : Request :=
  let h := Header_Set (req_Header req) "Proxy-Forward-To" (URL_String (req_URL req)) in
  let h := Header_Set h "Proxy-Webhook-Callback" (WebhookCallbackURL (ProxyConfig p)) in
  (* Pass along the client's TLS setting for the Proxy to use *)
  let h := if InsecureSkipVerify client
           then Header_Set h "Proxy-Insecure-Skip-Verify" "true" else h in
  {| Method := Method req; req_URL := req_URL req; req_Header := h |}.

(** Return response without proxy headers, except Proxy-Status. *)
Definition stripProxyHeaders (resp : Response) : Response :=
  let h := Header_Del (resp_Header resp) "Proxy-Free" in
  let h := Header_Del h "Proxy-Ordinal" in
  let h := Header_Del h "Proxy-Version" in
  let h := Header_Del h "Proxy-List" in
  {| StatusCode := StatusCode resp; resp_Header := h |}.

(** The body of the loop of [Do], at attempt number [attempt]. *)
Definition Do_attempt (attempt : Z) (client : Client) (s : DoState) : Step :=
  (* Determine the best proxy *)
  let '(p, selected) := determineBestProxy (st_proxy s) in
  match selected with
  | inl err =>
      Return (inl err) (mkDoState p (st_req s) (st_world s) (st_sent s))
  | inr (proxyOrdinal, proxyURL) =>
      (* Decrement free count as a prediction *)
      let p :=
        if 0 <=? proxyOrdinal
        then addFree p proxyOrdinal
               (wrap64 (-1 * wrap64 (NumberOfSenders (ProxyConfig p))))
        else p in
      let req := setProxyHeaders p client (st_req s) in
      (* Do the actual request *)
      let req := {| Method := Method req; req_URL := proxyURL;
                    req_Header := req_Header req |} in
      let sent := (st_sent s ++ [req])%list in
      let '(outcome, w) := client_Do (st_world s) req in
      match outcome with
      | inl err =>
          if 0 <=? proxyOrdinal then
            let p := markProxyPodAsDead p proxyOrdinal in
            (* Retry if needed *)
            if (attempt <? Attempts (ProxyConfig p)) && isRetryError err
            then Continue (mkDoState p req w sent)
            else Return (inl (TransportError err)) (mkDoState p req w sent)
          else Return (inl (TransportError err)) (mkDoState p req w sent)
      | inr resp =>
          (* Parse the response *)
          match updateKnownProxies p (resp_Header resp) (time_Now w) with
          | inl err => Return (inl err) (mkDoState p req w sent)
          | inr (_, p) =>
              Return (inr (stripProxyHeaders resp)) (mkDoState p req w sent)
          end
      end
  end.

(** The loop [for attempt := uint(1); ; attempt++].  [fuel] bounds the
    number of [continue]s; [None] when it does not suffice. *)
Fixpoint Do_loop (fuel : nat) (attempt : Z) (client : Client) (s : DoState)
    : option ((error + Response) * DoState) :=
  match Do_attempt attempt client s with
  | Return result s' => Some (result, s')
  | Continue s' =>
      match fuel with
      | O => None
      | S fuel' => Do_loop fuel' (uint_succ attempt) client s'
      end
  end.

(** Do forwards a non-blocking HTTP request to the proxy.  The loop
    continues only while [attempt < Attempts], so [Attempts] passes are
    enough ([Do_total]). *)
Definition Do (p : Proxy) (client : Client) (req : Request) (w : World)
    : option ((error + Response) * DoState) :=
  Do_loop (Z.to_nat (Attempts (ProxyConfig p))) 1 client (mkDoState p req w []).

(** [http.NewRequest(method, url, nil)]. *)
Definition http_NewRequest (method url : string) : error + Request :=
  match url_Parse url with
  | inl e => inl (URLError e)
  | inr u => inr {| Method := method; req_URL := u; req_Header := ∅ |}
  end.

(** Ensure attempts to ensure there are enough proxies to handle the
    predicted incoming requests: the error ([None] for nil), the proxy and
    the world as the call leaves them, and the requests it sent. *)
Definition Ensure (p : Proxy) (client : Client) (ensureRequests : Z)
    (w : World) : option error * Proxy * World * list Request :=
  (* Create the request *)
  match http_NewRequest "POST" (URL_String (Service p)) with
  | inl err => (Some err, p, w, [])
  | inr req =>
      (* Encode the Ensure-Request header *)
      let req := {| Method := Method req; req_URL := req_URL req;
                    req_Header := Header_Set (req_Header req)
                                    "Proxy-Ensure-Requests"
                                    (strconv_Itoa ensureRequests) |} in
      (* Do the request *)
      let '(outcome, w) := client_Do w req in
      match outcome with
      | inl err => (Some (TransportError err), p, w, [req])
      | inr resp =>
          (* Parse the response *)
          match updateKnownProxies p (resp_Header resp) (time_Now w) with
          | inl err => (Some err, p, w, [req])
          | inr (proxyStatus, p) =>
              if proxyStatus =? 200 then (None, p, w, [req])
              else (Some (ErrorString ("Unexpected proxy status code " +:+
                                       strconv_Itoa proxyStatus)),
                    p, w, [req])
          end
      end
  end.

End Router.

(** ** Construction and pings *)

Definition MaxUint32 : Z := 2 ^ 32 - 1.

Section Lifecycle.
Context `{Network}.

(** New constructs a new proxy with the proxy service URL.  (The ping
    routine it starts runs beside the callers and is not modelled; of the
    configuration, the fields of [Config] are kept.) *)
Definition New (proxyServiceURL : string) : error + Proxy :=
  match url_Parse proxyServiceURL with
  | inl e => inl (URLError e)
  | inr u =>
      inr {| Service := u; Version := 0; Pods := ∅; LastPodOrdinal := 0;
             ProxyConfig := {| NumberOfSenders := 1; Attempts := MaxUint32;
                               WebhookCallbackURL := EmptyString |} |}
  end.

(** NewWithConfig constructs a new proxy with the proxy service URL and
    config: zero-valued options fall back to the defaults of [New]. *)
Definition NewWithConfig (proxyServiceURL : string) (config : Config)
    : error + Proxy :=
  try proxy := New proxyServiceURL in
  let config :=
    if NumberOfSenders config =? 0
    then {| NumberOfSenders := NumberOfSenders (ProxyConfig proxy);
            Attempts := Attempts config;
            WebhookCallbackURL := WebhookCallbackURL config |}
    else config in
  let config :=
    if Attempts config =? 0
    then {| NumberOfSenders := NumberOfSenders config;
            Attempts := Attempts (ProxyConfig proxy);
            WebhookCallbackURL := WebhookCallbackURL config |}
    else config in
  inr {| Service := Service proxy; Version := Version proxy; Pods := Pods proxy;
         LastPodOrdinal := LastPodOrdinal proxy; ProxyConfig := config |}.

(** Pings a specific proxy pod: [client.Get(proxyURL)] is
    [http.NewRequest] followed by [client.Do].  The result is the error
    returned ([None] for nil), the proxy and the world after the call. *)
Definition pingProxy (p : Proxy) (proxyOrdinal : Z) (proxyURL : string)
    (w : World) : option error * Proxy * World :=
  match http_NewRequest "GET" proxyURL with
  | inl err => (Some err, markProxyPodAsDead p proxyOrdinal, w)
  | inr req =>
      let '(outcome, w) := client_Do w req in
      match outcome with
      | inl err =>
          (Some (TransportError err), markProxyPodAsDead p proxyOrdinal, w)
      | inr resp =>
          (* the result of updateKnownProxies is dropped *)
          match updateKnownProxies p (resp_Header resp) (time_Now w) with
          | inl _ => (None, p, w)
          | inr (_, p) => (None, p, w)
          end
      end
  end.

End Lifecycle.

(** ** A small instance of the library and of the network

    URLs of the shape scheme://host:port/path, JSON objects of the shape
    {"k":"v",...} with decimal keys and plain values, and a network that
    answers from a script. *)
Module Sample.

Record SimpleURL : Type := mkURL {
  u_scheme : string; u_host : string; u_port : string; u_path : string
}.

(** The text before the first [c] and, when [c] occurs, the text after it. *)
Fixpoint cut (c : ascii) (s : string) : string * option string :=
  match s with
  | EmptyString => (EmptyString, None)
  | String a s' =>
      if Ascii.eqb a c then (EmptyString, Some s')
      else let '(l, r) := cut c s' in (String a l, r)
  end.

Definition parseURL (s : string) : string + SimpleURL :=
  match cut ":" s with
  | (scheme, Some (String "/" (String "/" rest))) =>
      let '(authority, path) := cut "/" rest in
      let '(host, port) := cut ":" authority in
      inr {| u_scheme := scheme; u_host := host;
             u_port := default EmptyString port;
             u_path := match path with
                       | Some p => String "/" p
                       | None => EmptyString
                       end |}
  | _ => inl "missing protocol scheme"
  end.

Definition showURL (u : SimpleURL) : string :=
  u_scheme u +:+ "://" +:+ u_host u +:+
  (if String.eqb (u_port u) EmptyString then EmptyString else ":" +:+ u_port u)
  +:+ u_path u.

(** The double quote. *)
Definition dq : ascii := ascii_of_nat 34.

(** Entries ["k":"v"] separated by commas, up to the closing brace. *)
Fixpoint parseEntries (fuel : nat) (s : string) (acc : gmap Z string)
    : string + gmap Z string :=
  match fuel with
  | O => inl "unexpected end of JSON input"
  | S fuel' =>
      match s with
      | String q rest =>
          if negb (Ascii.eqb q dq) then inl "invalid character" else
          match cut dq rest with
          | (key, Some (String ":" (String q' rest'))) =>
              if negb (Ascii.eqb q' dq) then inl "invalid character" else
              match cut dq rest', strconv_ParseInt key with
              | (value, Some after), inr k =>
                  match after with
                  | String "}" EmptyString => inr (<[k := value]> acc)
                  | String "," more => parseEntries fuel' more (<[k := value]> acc)
                  | _ => inl "invalid character"
                  end
              | _, _ => inl "cannot unmarshal"
              end
          | _ => inl "invalid character"
          end
      | EmptyString => inl "unexpected end of JSON input"
      end
  end.

Definition parseObject (s : string) : string + gmap Z string :=
  match s with
  | EmptyString => inl "unexpected end of JSON input"
  | String "{" (String "}" EmptyString) => inr ∅
  | String "{" rest => parseEntries (String.length rest) rest ∅
  | _ => inl "invalid character"
  end.

#[export] Instance sample_lib : Lib := {|
  URL := SimpleURL;
  url_Parse := parseURL;
  URL_String := showURL;
  URL_Scheme := u_scheme;
  URL_Port := u_port;
  URL_Path := u_path;
  json_Unmarshal := parseObject;
  json_Unmarshal_empty := ex_intro _ "unexpected end of JSON input" eq_refl
|}.

(** The scripted network: each call of [client.Do] consumes the next
    outcome of the script and advances the clock by one. *)
Record Script : Type := mkScript {
  outcomes : list (string + Response);
  clock : Z
}.

Definition script_Do (w : Script) (req : Request) : (string + Response) * Script :=
  match outcomes w with
  | [] => (inl "no route to host", mkScript [] (clock w + 1))
  | o :: os => (o, mkScript os (clock w + 1))
  end.

#[export] Instance sample_network : Network := {|
  World := Script;
  client_Do := script_Do;
  time_Now := clock
|}.

End Sample.


(** ** Sample data *)

Module Data.
Import Sample.

Definition service : SimpleURL := mkURL "http" "proxy" "80" EmptyString.
Definition recipient : SimpleURL := mkURL "http" "recipient" EmptyString EmptyString.

Definition config (attempts : Z) : Config :=
  {| NumberOfSenders := 1; Attempts := attempts; WebhookCallbackURL := EmptyString |}.

Definition alive (ip : string) (counter free : Z) : Pod :=
  {| IP := ip; Timestamp := 0; Counter := counter; Free := free |}.

(** The table {0: free=5, 1: free=10, 2: free=1}, every pod alive. *)
Definition pods3 : gmap Z Pod :=
  <[0 := alive "10.0.0.1" 1 5]>
    (<[1 := alive "10.0.0.2" 1 10]> (<[2 := alive "10.0.0.3" 1 1]> ∅)).

Definition proxy3 : Proxy :=
  {| Service := service; Version := 3; Pods := pods3; LastPodOrdinal := 2;
     ProxyConfig := config 3 |}.

(** The JSON text of a list of entries. *)
Definition json_object (l : list (string * string)) : string :=
  "{" +:+
  String.concat ","
    (map (fun '(k, v) => String dq k +:+ String dq ":" +:+ String dq v +:+
                          String dq EmptyString) l)
  +:+ "}".

(** The headers of a well-formed proxy response. *)
Definition proxy_headers (free ordinal vers counter status : string)
    (l : list (string * string)) : Header :=
  <["Proxy-Free" := [free]]>
    (<["Proxy-Ordinal" := [ordinal]]>
      (<["Proxy-Version" := [vers]]>
        (<["Proxy-Counter" := [counter]]>
          (<["Proxy-Status" := [status]]>
            (<["Proxy-List" := [json_object l]]> ∅))))).

Definition list3 : list (string * string) :=
  [("0", "10.0.0.1"); ("1", "10.0.0.2"); ("2", "10.0.0.3")].

(** The addresses of [pods3], and the same with a new address for pod 1. *)
Definition addresses3 : gmap Z string :=
  <[0 := "10.0.0.1"]> (<[1 := "10.0.0.2"]> (<[2 := "10.0.0.3"]> ∅)).

Definition addresses3' : gmap Z string :=
  <[0 := "10.0.0.1"]> (<[1 := "10.0.0.9"]> (<[2 := "10.0.0.3"]> ∅)).

Definition request : Request :=
  {| Method := "GET"; req_URL := recipient; req_Header := ∅ |}.

Definition plain_client : Client := {| InsecureSkipVerify := false |}.

(** A response of pod [ordinal] with counter 7 and four free slots. *)
Definition ok_response (ordinal : string) : Response :=
  mkResponse 200 (proxy_headers "4" ordinal "3" "7" "200" list3).

Definition refused : string := "dial tcp 10.0.0.2:80: connect: connection refused".

(** The network answers the first call. *)
Definition world_ok : Script := mkScript [inr (ok_response "1")] 100.

(** The network refuses the first connection and answers the second. *)
Definition world_refused_once : Script :=
  mkScript [inl refused; inr (ok_response "0")] 100.

(** The network fails the first call with an error that is not a
    connection error. *)
Definition world_eof : Script := mkScript [inl "EOF"] 100.

(** The network answers the first call with a response that lacks the
    Proxy-Counter header, and would answer a second call properly. *)
Definition world_no_counter : Script :=
  mkScript [inr (mkResponse 200 (Header_Del (resp_Header (ok_response "1"))
                                            "Proxy-Counter"));
            inr (ok_response "1")] 100.

(** The state [Do] starts from on [proxy3] in the world [w]. *)
Definition start (w : Script) : DoState := mkDoState proxy3 request w [].

Definition pod_url (host : string) : SimpleURL := mkURL "http" host "80" EmptyString.

(** A proxy whose service URL has a scheme that no address completes to
    a URL. *)
Definition proxy_bad_scheme : Proxy :=
  {| Service := mkURL "ht:tp" "proxy" "80" EmptyString; Version := 3;
     Pods := pods3; LastPodOrdinal := 2; ProxyConfig := config 3 |}.

(** The proxy that [NewWithConfig] makes for http://proxy:80 when no
    option is set. *)
Definition fresh_proxy : Proxy :=
  {| Service := service; Version := 0; Pods := ∅; LastPodOrdinal := 0;
     ProxyConfig := {| NumberOfSenders := 1; Attempts := 2 ^ 32 - 1;
                       WebhookCallbackURL := EmptyString |} |}.

End Data.

(** ** Vocabulary of the statements *)

(** One stat update: ordinal, counter, free count and the time it is
    applied at. *)
Record StatUpdate : Type := mkStatUpdate {
  su_ordinal : Z; su_counter : Z; su_free : Z; su_now : Z
}.

(** A sequence of stat updates, applied in order. *)
Definition updateProxyPods `{Lib} (p : Proxy) (updates : list StatUpdate) : Proxy :=
  foldl (fun p u => updateProxyPod p (su_ordinal u) (su_counter u) (su_free u) (su_now u))
        p updates.

(** A pod the selection looks at: known and not marked dead. *)
Definition eligible (pods : gmap Z Pod) (ordinal : Z) (pod : Pod) : Prop :=
  pods !! ordinal = Some pod /\ 0 <= Counter pod.

(** The free count the selection ends with when it returns [ordinal]:
    the one of the pod returned, and the initial bound when none is. *)
Definition bestFreeOf (pods : gmap Z Pod) (ordinal : Z) : Z :=
  if ordinal <? 0 then - MaxInt64
  else default (- MaxInt64) (Free <$> pods !! ordinal).

(** What the scan knows when it is about to look at [ordinal]. *)
Definition scan_inv (pods : gmap Z Pod) (ordinal bestOrdinal bestFree : Z) : Prop :=
  ((bestOrdinal = -1 /\ bestFree = - MaxInt64)
   \/ (0 <= bestOrdinal < ordinal /\ - MaxInt64 < bestFree
       /\ exists pod, eligible pods bestOrdinal pod /\ Free pod = bestFree))
  /\ (forall i pod, 0 <= i < ordinal -> eligible pods i pod ->
        Free pod <= bestFree /\ (Free pod = bestFree -> bestOrdinal <= i)).

(** The proxy after the reset of [determineBestProxy]. *)
Definition cleared `{Lib} (p : Proxy) : Proxy :=
  {| Service := Service p; Version := Version p; Pods := ∅;
     LastPodOrdinal := 0; ProxyConfig := ProxyConfig p |}.

(** The pod a new list gives to [ordinal] with address [ip]: the pod of
    the old table when it has this ordinal with this address, and a new
    pod otherwise. *)
Definition keptOrNew (pods : gmap Z Pod) (ordinal : Z) (ip : string) : Pod :=
  match pods !! ordinal with
  | Some pod => if String.eqb (IP pod) ip then pod else newPod ip
  | None => newPod ip
  end.

(** The new list differs from the table: in size, or in an ordinal that
    the table lacks or has under another address. *)
Definition listDiffers (pods : gmap Z Pod) (newProxyList : gmap Z string) : Prop :=
  size pods <> size newProxyList
  \/ exists ordinal ip, newProxyList !! ordinal = Some ip
       /\ (pods !! ordinal = None
           \/ exists pod, pods !! ordinal = Some pod /\ IP pod <> ip).

(** The proxy after the decrement of the free count of the pod selected
    (none for the service URL, ordinal -1). *)
Definition predicted `{Lib} (p : Proxy) (ordinal : Z) : Proxy :=
  if 0 <=? ordinal
  then addFree p ordinal (wrap64 (-1 * wrap64 (NumberOfSenders (ProxyConfig p))))
  else p.

(** The request that an attempt hands to [client.Do]: the caller's request
    with the proxy headers set and its URL replaced by [proxyURL]. *)
Definition outbound `{Lib} (p : Proxy) (client : Client) (req : Request)
    (proxyURL : URL) : Request :=
  {| Method := Method req; req_URL := proxyURL;
     req_Header := req_Header (setProxyHeaders p client req) |}.

(** The response headers the client requires. *)
Definition requiredHeaders : list string :=
  ["Proxy-Free"; "Proxy-Ordinal"; "Proxy-Version"; "Proxy-Counter";
   "Proxy-Status"; "Proxy-List"].

(** A required header that cannot be read: an integer header that
    [strconv.ParseInt] refuses, a list that [json.Unmarshal] refuses. *)
Definition unreadable `{Lib} (header : Header) (name : string) : bool :=
  if String.eqb name "Proxy-List"
  then match parseProxyList (Header_Get header name) with
       | inl _ => true
       | inr _ => false
       end
  else match strconv_ParseInt (Header_Get header name) with
       | inl _ => true
       | inr _ => false
       end.

(** The largest counter among the stored one and those that a sequence of
    stat updates brings for [ordinal]. *)
Definition newestCounter (ordinal counter : Z) (updates : list StatUpdate) : Z :=
  foldl (fun c u => if su_ordinal u =? ordinal then Z.max c (su_counter u) else c)
        counter updates.

(** The state that one pass of the loop of [Do] leaves. *)
Definition step_state `{Network} (step : Step) : DoState :=
  match step with
  | Return _ s => s
  | Continue s => s
  end.

(** No ordinal of the table is above [LastPodOrdinal], which is not
    negative. *)
Definition table_bounded `{Lib} (p : Proxy) : Prop :=
  0 <= LastPodOrdinal p
  /\ forall i pod, Pods p !! i = Some pod -> i <= LastPodOrdinal p.

(** What no operation of the client changes, and the one way the version
    moves: [q] has the service URL and the configuration of [p], and a
    version that is not older. *)
Definition sameClient `{Lib} (p q : Proxy) : Prop :=
  Service q = Service p /\ ProxyConfig q = ProxyConfig p
  /\ Version p <= Version q.

(** ** Strings *)

Lemma prefix_spec (sub s : string) :
  String.prefix sub s = true <-> exists r, s = sub +:+ r.
Proof.
  revert s. induction sub as [|a sub IH]; intros s.
  - destruct s; (split; [intros _; by eexists|done]).
  - destruct s as [|b s]; cbn.
    + split; [done|]. by intros [r ?].
    + destruct (ascii_dec a b) as [->|Hne].
      * rewrite IH. split; intros [r Hr]; exists r; [by rewrite Hr|by injection Hr].
      * split; [done|]. intros [r [= ? _]]. done.
Qed.

(** [strings_Contains s substr] holds exactly when [substr] occurs in [s]. *)
Lemma strings_Contains_spec (s substr : string) :
  strings_Contains s substr = true <-> exists l r, s = l +:+ substr +:+ r.
Proof.
  induction s as [|a s IH].
  - cbn [strings_Contains]. rewrite orb_false_r, prefix_spec. split.
    + intros [r Hr]. by exists EmptyString, r.
    + intros ([|? l] & r & Hr); [by exists r|done].
  - cbn [strings_Contains]. rewrite orb_true_iff, prefix_spec, IH. split.
    + intros [[r Hr]|(l & r & Hr)].
      * by exists EmptyString, r.
      * exists (String a l), r. cbn. by rewrite Hr.
    + intros ([|b l] & r & Hr).
      * left. by exists r.
      * right. injection Hr as -> Hr. by exists l, r.
Qed.

(** ** The registry *)

Section RegistryFacts.
Context `{Lib}.

Lemma set_Pods_id (p : Proxy) : set_Pods p (Pods p) = p.
Proof. by destruct p. Qed.

Lemma updateProxyPod_lookup_ne (p : Proxy) i j c f now :
  i <> j -> Pods (updateProxyPod p i c f now) !! j = Pods p !! j.
Proof.
  intros Hij. unfold updateProxyPod.
  destruct (Pods p !! i) as [pod|] eqn:Hi; [|done].
  destruct (c <=? Counter pod); [done|]. cbn.
  by rewrite lookup_insert_ne.
Qed.

(** One update never lowers the counter of a pod, nor changes its IP. *)
Lemma updateProxyPod_counter_mono (p : Proxy) i c f now j pod :
  Pods p !! j = Some pod ->
  exists pod', Pods (updateProxyPod p i c f now) !! j = Some pod'
               /\ Counter pod <= Counter pod' /\ IP pod' = IP pod.
Proof.
  intros Hj. destruct (decide (i = j)) as [->|Hij].
  - unfold updateProxyPod. rewrite Hj.
    destruct (c <=? Counter pod) eqn:Hc.
    + exists pod. rewrite Hj. split; [done|]. split; [lia|done].
    + cbn. rewrite lookup_insert_eq. eexists; split; [done|].
      cbn. apply Z.leb_gt in Hc. split; [lia|done].
  - exists pod. rewrite updateProxyPod_lookup_ne by done.
    split; [done|]. split; [lia|done].
Qed.

Lemma updateProxyPods_counter_mono (updates : list StatUpdate) :
  forall (p : Proxy) j pod,
    Pods p !! j = Some pod ->
    exists pod', Pods (updateProxyPods p updates) !! j = Some pod'
                 /\ Counter pod <= Counter pod' /\ IP pod' = IP pod.
Proof.
  induction updates as [|u updates IH]; intros p j pod Hj.
  - exists pod. cbn. split; [done|]. split; [lia|done].
  - cbn.
    destruct (updateProxyPod_counter_mono p (su_ordinal u) (su_counter u)
                (su_free u) (su_now u) j pod Hj) as (pod1 & H1 & Hle1 & Hip1).
    destruct (IH _ j pod1 H1) as (pod2 & H2 & Hle2 & Hip2).
    exists pod2. split; [exact H2|]. split; [lia|congruence].
Qed.

(** C1. A stat update [updateProxyPod p ordinal counter free now] is accepted
    exactly when the pod is known and [counter] is strictly greater than
    the stored counter: then counter, free count and timestamp take the
    incoming values (in particular a pod marked dead, counter -1, is
    revived by any counter that is not negative); when the ordinal is
    unknown or the counter is not greater, the proxy is unchanged.
    Hence over any sequence of stat updates the counter of a pod never
    decreases. *)
Theorem updateProxyPod_accepts_newer_only
    (p : Proxy) (ordinal counter free : Z) (now : Z) :
  (forall pod, Pods p !! ordinal = Some pod -> Counter pod < counter ->
     updateProxyPod p ordinal counter free now
     = set_Pods p (<[ordinal := {| IP := IP pod; Timestamp := now;
                                   Counter := counter; Free := free |}]> (Pods p)))
  /\ (forall pod, Pods p !! ordinal = Some pod -> Counter pod = -1 -> 0 <= counter ->
        Pods (updateProxyPod p ordinal counter free now) !! ordinal
        = Some {| IP := IP pod; Timestamp := now; Counter := counter; Free := free |})
  /\ (Pods p !! ordinal = None -> updateProxyPod p ordinal counter free now = p)
  /\ (forall pod, Pods p !! ordinal = Some pod -> counter <= Counter pod ->
        updateProxyPod p ordinal counter free now = p)
  /\ (forall (before after : list StatUpdate) pod,
        Pods (updateProxyPods p before) !! ordinal = Some pod ->
        exists pod',
          Pods (updateProxyPods p (before ++ after)) !! ordinal = Some pod'
          /\ Counter pod <= Counter pod').
Proof.
  assert (Hacc : forall pod, Pods p !! ordinal = Some pod -> Counter pod < counter ->
     updateProxyPod p ordinal counter free now
     = set_Pods p (<[ordinal := {| IP := IP pod; Timestamp := now;
                                   Counter := counter; Free := free |}]> (Pods p))).
  { intros pod Hpod Hlt. unfold updateProxyPod. rewrite Hpod.
    destruct (counter <=? Counter pod) eqn:Hc; [apply Z.leb_le in Hc; lia|done]. }
  repeat split.
  - exact Hacc.
  - intros pod Hpod Hdead Hnn. rewrite (Hacc pod) by (done || lia).
    cbn. by rewrite lookup_insert_eq.
  - intros Hnone. unfold updateProxyPod. by rewrite Hnone.
  - intros pod Hpod Hle. unfold updateProxyPod. rewrite Hpod.
    destruct (counter <=? Counter pod) eqn:Hc; [done|apply Z.leb_gt in Hc; lia].
  - intros before after pod Hpod. unfold updateProxyPods in *.
    rewrite foldl_app.
    destruct (updateProxyPods_counter_mono after _ ordinal pod Hpod)
      as (pod' & H' & Hle & _).
    exists pod'. split; [exact H'|exact Hle].
Qed.

(** *** The selection *)

Lemma scan_inv_bestFreeOf pods ordinal bestOrdinal bestFree :
  scan_inv pods ordinal bestOrdinal bestFree ->
  bestFreeOf pods bestOrdinal = bestFree.
Proof.
  intros [[[-> ->]|(Hr & _ & pod & [Hpod _] & Hf)] _]; unfold bestFreeOf.
  - done.
  - destruct (bestOrdinal <? 0) eqn:Hneg; [apply Z.ltb_lt in Hneg; lia|].
    by rewrite Hpod.
Qed.

(** One pass of the loop below the last ordinal keeps the invariant. *)
Lemma bestOrdinal_loop_below pods last (n m : nat) :
  forall ordinal bestOrdinal bestFree,
    0 <= ordinal -> ordinal + Z.of_nat n <= last ->
    scan_inv pods ordinal bestOrdinal bestFree ->
    exists bestOrdinal' bestFree',
      bestOrdinal_loop pods last (n + m) ordinal bestOrdinal bestFree
      = bestOrdinal_loop pods last m (ordinal + Z.of_nat n) bestOrdinal' bestFree'
      /\ scan_inv pods (ordinal + Z.of_nat n) bestOrdinal' bestFree'.
Proof.
  induction n as [|n IH]; intros ordinal bO bF Hord Hlast Hinv.
  - exists bO, bF. rewrite Z.add_0_r. by split.
  - assert (Hne : (ordinal =? last) = false) by (apply Z.eqb_neq; lia).
    assert (Hshift : ordinal + Z.of_nat (S n) = ordinal + 1 + Z.of_nat n) by lia.
    rewrite Hshift. cbn [Nat.add bestOrdinal_loop]. rewrite Hne. cbn [andb].
    destruct Hinv as [Hbest Hmax].
    assert (Hstay : (forall pod, eligible pods ordinal pod -> Free pod <= bF) ->
                    scan_inv pods (ordinal + 1) bO bF).
    { intros Hle. split.
      - destruct Hbest as [?|(? & ? & ?)]; [by left|right; split; [lia|done]].
      - intros i pod Hi Hel. destruct (decide (i = ordinal)) as [->|].
        + split; [by apply Hle|]. intros _.
          destruct Hbest as [[-> _]|([_ ?] & _)]; lia.
        + apply Hmax; [lia|done]. }
    destruct (pods !! ordinal) as [pod|] eqn:Hpod.
    + destruct (Counter pod <? 0) eqn:Hdead.
      * apply IH; [lia..|]. apply Hstay. intros pod' [Hpod' Hal].
        apply Z.ltb_lt in Hdead. rewrite Hpod in Hpod'. simplify_eq. lia.
      * apply Z.ltb_ge in Hdead.
        destruct (bF <? Free pod) eqn:Hbetter.
        -- apply Z.ltb_lt in Hbetter. apply IH; [lia..|]. split.
           ++ right. split; [lia|]. split.
              ** destruct Hbest as [[_ ->]|(_ & ? & _)]; lia.
              ** exists pod. by repeat split.
           ++ intros i pod' Hi Hel. destruct (decide (i = ordinal)) as [->|].
              ** destruct Hel as [Hpod' _]. rewrite Hpod in Hpod'. simplify_eq.
                 split; lia.
              ** destruct (Hmax i pod') as [? ?]; [lia|done|]. split; lia.
        -- apply Z.ltb_ge in Hbetter. apply IH; [lia..|]. apply Hstay.
           intros pod' [Hpod' _]. rewrite Hpod in Hpod'. by simplify_eq.
    + apply IH; [lia..|]. apply Hstay. intros pod' [Hpod' _]. congruence.
Qed.

(** When every known pod is marked dead the scan keeps what it started with. *)
Lemma bestOrdinal_loop_all_dead pods last (n : nat) :
  (forall i pod, pods !! i = Some pod -> Counter pod < 0) ->
  forall ordinal bestOrdinal bestFree,
    bestOrdinal_loop pods last n ordinal bestOrdinal bestFree = bestOrdinal.
Proof.
  intros Hdead. induction n as [|n IH]; intros ordinal bO bF; [done|].
  cbn. destruct (pods !! ordinal) as [pod|] eqn:Hpod; [|apply IH].
  apply Hdead in Hpod. apply Z.ltb_lt in Hpod. rewrite Hpod. apply IH.
Qed.

(** The result of the scan. *)
Lemma determineBestProxyOrdinal_spec (p : Proxy) :
  let pods := Pods p in
  let last := LastPodOrdinal p in
  let r := determineBestProxyOrdinal p in
  (r = -1 \/ (0 <= r <= last /\ exists pod, eligible pods r pod /\ - MaxInt64 < Free pod))
  /\ (forall i pod, 0 <= i < last -> eligible pods i pod ->
        Free pod <= bestFreeOf pods r /\ (Free pod = bestFreeOf pods r -> r <= i))
  /\ (forall pod, 0 <= last -> eligible pods last pod ->
        ((exists i podi, 0 <= i < last /\ eligible pods i podi /\ 0 < Free podi) ->
           r < last)
        /\ ((forall i podi, 0 <= i < last -> eligible pods i podi -> Free podi <= 0) ->
             Free pod <= bestFreeOf pods r)).
Proof.
  intros pods last r. subst r. unfold determineBestProxyOrdinal. fold pods last.
  destruct (Z.lt_ge_cases last 0) as [Hneg|Hnn].
  { replace (Z.to_nat (last + 1)) with 0%nat by lia. cbn.
    split; [by left|]. split; [intros; lia|intros; lia]. }
  replace (Z.to_nat (last + 1)) with (Z.to_nat last + 1)%nat by lia.
  destruct (bestOrdinal_loop_below pods last (Z.to_nat last) 1 0 (-1) (- MaxInt64))
    as (bO & bF & -> & Hinv).
  { lia. } { lia. }
  { split; [by left|]. intros; lia. }
  replace (0 + Z.of_nat (Z.to_nat last)) with last in * by lia.
  pose proof (scan_inv_bestFreeOf _ _ _ _ Hinv) as HbF.
  destruct Hinv as [Hbest Hmax].
  assert (Hfirst : bO = -1 \/ (0 <= bO <= last /\
            exists pod, eligible pods bO pod /\ - MaxInt64 < Free pod)).
  { destruct Hbest as [[-> _]|(? & ? & pod & ? & ?)]; [by left|right].
    split; [lia|]. exists pod. split; [done|lia]. }
  assert (Hpos : (exists i podi, 0 <= i < last /\ eligible pods i podi /\ 0 < Free podi)
                 -> 0 < bF).
  { intros (i & podi & Hi & Hel & Hfree). destruct (Hmax i podi Hi Hel). lia. }
  assert (Hnonpos : (forall i podi, 0 <= i < last -> eligible pods i podi -> Free podi <= 0)
                    -> bF <= 0).
  { intros Hall. destruct Hbest as [[_ ->]|(Hr & _ & pod & Hel & <-)].
    - unfold MaxInt64. lia.
    - apply (Hall bO); [lia|done]. }
  assert (HbO : bO < last) by (destruct Hbest as [[-> _]|([_ ?] & _)]; lia).
  cbn [bestOrdinal_loop].
  destruct (pods !! last) as [pod|] eqn:Hpod.
  2:{ split; [exact Hfirst|]. split; [by rewrite HbF|].
      intros pod' _ [Hpod' _]. fold pods in Hpod. congruence. }
  destruct (Counter pod <? 0) eqn:Hdead.
  { apply Z.ltb_lt in Hdead. split; [exact Hfirst|]. split; [by rewrite HbF|].
    intros pod' _ [Hpod' Hal]. fold pods in Hpod. rewrite Hpod in Hpod'.
    simplify_eq. lia. }
  apply Z.ltb_ge in Hdead. rewrite Z.eqb_refl. cbn [andb].
  destruct (0 <? bF) eqn:Hbreak.
  { apply Z.ltb_lt in Hbreak. split; [exact Hfirst|]. split; [by rewrite HbF|].
    intros pod' _ _. split; [done|]. intros Hall. apply Hnonpos in Hall. lia. }
  apply Z.ltb_ge in Hbreak.
  destruct (bF <? Free pod) eqn:Hbetter.
  - apply Z.ltb_lt in Hbetter.
    assert (HbFl : bestFreeOf pods last = Free pod).
    { unfold bestFreeOf. destruct (last <? 0) eqn:E; [apply Z.ltb_lt in E; lia|].
      fold pods in Hpod. by rewrite Hpod. }
    rewrite HbFl. split.
    { right. split; [lia|]. exists pod. split; [by split|].
      destruct Hbest as [[_ ->]|(_ & ? & _)]; lia. }
    split.
    { intros i podi Hi Hel. destruct (Hmax i podi Hi Hel). split; lia. }
    intros pod' _ [Hpod' _]. fold pods in Hpod. rewrite Hpod in Hpod'. simplify_eq.
    split; [|lia]. intros Hex. apply Hpos in Hex. lia.
  - apply Z.ltb_ge in Hbetter. rewrite HbF. split; [exact Hfirst|].
    split; [exact Hmax|].
    intros pod' _ [Hpod' _]. fold pods in Hpod. rewrite Hpod in Hpod'. simplify_eq.
    split; [|lia]. intros Hex. apply Hpos in Hex. lia.
Qed.

(** *** The replacement of the list *)

Lemma rebuildPods_spec (pods : gmap Z Pod) (newProxyList : gmap Z string) :
  (forall i, (rebuildPods pods newProxyList).1 !! i
             = keptOrNew pods i <$> newProxyList !! i)
  /\ 0 <= (rebuildPods pods newProxyList).2
  /\ (forall i, is_Some (newProxyList !! i) -> i <= (rebuildPods pods newProxyList).2)
  /\ ((rebuildPods pods newProxyList).2 = 0
      \/ is_Some (newProxyList !! (rebuildPods pods newProxyList).2)).
Proof.
  unfold rebuildPods.
  apply (map_fold_weak_ind (fun (r : gmap Z Pod * Z) (m : gmap Z string) =>
    (forall i, r.1 !! i = keptOrNew pods i <$> m !! i)
    /\ 0 <= r.2
    /\ (forall i, is_Some (m !! i) -> i <= r.2)
    /\ (r.2 = 0 \/ is_Some (m !! r.2)))).
  - split; [intros i; by rewrite !lookup_empty|]. split; [done|].
    split; [|by left]. intros i [? Hi]. by rewrite lookup_empty in Hi.
  - intros ordinal newIP m [newPods newLast] Hfresh (Hlook & Hnn & Hub & Hatt).
    cbn [fst snd] in *.
    set (newLast' := if newLast <? ordinal then ordinal else newLast).
    assert (Hpods : forall np, np = <[ordinal := keptOrNew pods ordinal newIP]> newPods ->
              forall i, np !! i = keptOrNew pods i <$> <[ordinal := newIP]> m !! i).
    { intros np -> i. destruct (decide (ordinal = i)) as [->|Hne].
      - by rewrite !lookup_insert_eq.
      - rewrite !lookup_insert_ne by done. apply Hlook. }
    assert (Hlast : 0 <= newLast'
              /\ (forall i, is_Some (<[ordinal := newIP]> m !! i) -> i <= newLast')
              /\ (newLast' = 0 \/ is_Some (<[ordinal := newIP]> m !! newLast'))).
    { subst newLast'. destruct (newLast <? ordinal) eqn:Hlt.
      - apply Z.ltb_lt in Hlt. split; [lia|]. split.
        + intros i. destruct (decide (ordinal = i)) as [->|Hne]; [lia|].
          rewrite lookup_insert_ne by done. intros Hi%Hub. lia.
        + right. rewrite lookup_insert_eq. by eexists.
      - apply Z.ltb_ge in Hlt. split; [lia|]. split.
        + intros i. destruct (decide (ordinal = i)) as [->|Hne]; [lia|].
          rewrite lookup_insert_ne by done. apply Hub.
        + destruct Hatt as [?|Hatt]; [by left|right].
          destruct (decide (ordinal = newLast)) as [->|Hne].
          * rewrite lookup_insert_eq. by eexists.
          * by rewrite lookup_insert_ne. }
    unfold keptOrNew in Hpods at 1.
    destruct (pods !! ordinal) as [pod|]; [destruct (String.eqb (IP pod) newIP)|];
      cbn [fst snd]; (split; [by apply Hpods|exact Hlast]).
Qed.

Lemma shouldUpdateProxyList_fold (pods : gmap Z Pod) (newProxyList : gmap Z string) :
  map_fold (fun ordinal ip changed =>
              changed ||
              match pods !! ordinal with
              | Some pod => negb (String.eqb ip (IP pod))
              | None => true
              end) false newProxyList = true
  <-> exists ordinal ip, newProxyList !! ordinal = Some ip
        /\ (pods !! ordinal = None
            \/ exists pod, pods !! ordinal = Some pod /\ IP pod <> ip).
Proof.
  apply (map_fold_weak_ind (fun (r : bool) (m : gmap Z string) =>
    r = true <-> exists ordinal ip, m !! ordinal = Some ip
        /\ (pods !! ordinal = None
            \/ exists pod, pods !! ordinal = Some pod /\ IP pod <> ip))).
  - split; [done|]. intros (i & ip & Hi & _). by rewrite lookup_empty in Hi.
  - intros ordinal ip m r Hfresh IH. rewrite orb_true_iff, IH. split.
    + intros [(i & ip' & Hi & Hd)|Hd].
      * exists i, ip'. split; [|done].
        rewrite lookup_insert_ne; [done|]. intros ->. congruence.
      * exists ordinal, ip. rewrite lookup_insert_eq. split; [done|].
        destruct (pods !! ordinal) as [pod|]; [right|by left].
        exists pod. split; [done|]. apply negb_true_iff, String.eqb_neq in Hd.
        congruence.
    + intros (i & ip' & Hi & Hd). destruct (decide (ordinal = i)) as [->|Hne].
      * rewrite lookup_insert_eq in Hi. simplify_eq. right.
        destruct Hd as [->|(pod & -> & Hip)]; [done|].
        apply negb_true_iff, String.eqb_neq. congruence.
      * rewrite lookup_insert_ne in Hi by done. left. by exists i, ip'.
Qed.

(** [shouldUpdateProxyList] says yes exactly for a newer version with a
    list that differs. *)
Lemma shouldUpdateProxyList_true (p : Proxy) (newProxyList : gmap Z string) (version : Z) :
  shouldUpdateProxyList p newProxyList version = true
  <-> Version p < version /\ listDiffers (Pods p) newProxyList.
Proof.
  unfold shouldUpdateProxyList, listDiffers.
  destruct (version <=? Version p) eqn:Hv.
  { apply Z.leb_le in Hv. split; [done|]. intros [? _]. lia. }
  apply Z.leb_gt in Hv.
  destruct (size (Pods p) =? size newProxyList)%nat eqn:Hsize; cbn [negb].
  - apply Nat.eqb_eq in Hsize. rewrite shouldUpdateProxyList_fold.
    split; [intros ?; split; [lia|by right]|]. intros [_ [?|?]]; done.
  - apply Nat.eqb_neq in Hsize. split; [|done]. intros _. split; [lia|by left].
Qed.

(** What [determineBestProxy] can return, and the proxy it leaves. *)
Lemma determineBestProxy_cases (p p1 : Proxy) (ordinal : Z) (u : URL) :
  determineBestProxy p = (p1, inr (ordinal, u)) ->
  (ordinal = -1 /\ u = Service p /\ (p1 = p \/ p1 = cleared p))
  \/ (0 <= ordinal /\ p1 = p /\ exists pod, eligible (Pods p) ordinal pod).
Proof.
  unfold determineBestProxy. destruct (size (Pods p) =? 0)%nat.
  { intros [= <- <- <-]. left. by eauto. }
  destruct (determineBestProxyOrdinal p <? 0) eqn:Hneg.
  { intros [= <- <- <-]. left. by eauto. }
  apply Z.ltb_ge in Hneg.
  destruct (url_Parse _); [done|]. intros [= <- <- <-]. right.
  split; [done|]. split; [done|].
  destruct (determineBestProxyOrdinal_spec p) as [[Hr|(_ & pod & Hel & _)] _];
    [lia|by exists pod].
Qed.

Lemma determineBestProxy_empty (p : Proxy) :
  Pods p = ∅ -> determineBestProxy p = (p, inr (-1, Service p)).
Proof.
  intros Hempty. unfold determineBestProxy. rewrite Hempty.
  by rewrite map_size_empty.
Qed.

Lemma determineBestProxy_config (p : Proxy) :
  ProxyConfig (determineBestProxy p).1 = ProxyConfig p.
Proof.
  unfold determineBestProxy. destruct (size (Pods p) =? 0)%nat; [done|].
  destruct (determineBestProxyOrdinal p <? 0); [done|].
  by destruct (url_Parse _).
Qed.

End RegistryFacts.

(** C2. The selection scans the ordinals from 0 to [LastPodOrdinal] in
    increasing order, skips the ordinals without a pod and the pods marked
    dead, and keeps the first pod with the largest free count.  Below the
    last ordinal every eligible pod is considered; the last ordinal is not
    considered when a pod with a positive free count was found below it, and
    is considered otherwise.  [determineBestProxy] returns the ordinal so
    found.  For the pods {0: free=5, 1: free=10, 2: free=1}, all alive and
    with last ordinal 2, it returns 1, and 0 once pod 1 is marked dead. *)
Theorem determineBestProxy_prefers_most_free_below_last `{Lib} (p : Proxy) :
  let pods := Pods p in
  let last := LastPodOrdinal p in
  let r := determineBestProxyOrdinal p in
  (r = -1 \/ (0 <= r <= last /\ exists pod, eligible pods r pod /\ - MaxInt64 < Free pod))
  /\ (forall i pod, 0 <= i < last -> eligible pods i pod ->
        Free pod <= bestFreeOf pods r /\ (Free pod = bestFreeOf pods r -> r <= i))
  /\ (forall pod, 0 <= last -> eligible pods last pod ->
        ((exists i podi, 0 <= i < last /\ eligible pods i podi /\ 0 < Free podi) ->
           r < last)
        /\ ((forall i podi, 0 <= i < last -> eligible pods i podi -> Free podi <= 0) ->
             Free pod <= bestFreeOf pods r))
  /\ (forall pod u, pods <> ∅ -> 0 <= r -> pods !! r = Some pod ->
        url_Parse (formatURL p (IP pod)) = inr u ->
        determineBestProxy p = (p, inr (r, u)))
  /\ determineBestProxy Data.proxy3
     = (Data.proxy3, inr (1, Sample.mkURL "http" "10.0.0.2" "80" EmptyString))
  /\ determineBestProxy (markProxyPodAsDead Data.proxy3 1)
     = (markProxyPodAsDead Data.proxy3 1,
        inr (0, Sample.mkURL "http" "10.0.0.1" "80" EmptyString)).
Proof.
  intros pods last r.
  destruct (determineBestProxyOrdinal_spec p) as (H1 & H2 & H3).
  split; [exact H1|]. split; [exact H2|]. split; [exact H3|].
  split; [|split; reflexivity].
  intros pod u Hne Hr Hpod Hu. unfold determineBestProxy.
  destruct (size (Pods p) =? 0)%nat eqn:Hsize.
  { apply Nat.eqb_eq, map_size_empty_iff in Hsize. done. }
  fold r. destruct (r <? 0) eqn:Hneg; [apply Z.ltb_lt in Hneg; lia|].
  fold pods. rewrite Hpod. cbn. by rewrite Hu.
Qed.

(** C7. When no pod is eligible the selection returns ordinal -1 and the
    service URL.  With an empty table the proxy is left as it is; with a
    table whose pods are all marked dead the table is cleared: [Pods]
    becomes empty and [LastPodOrdinal] is reset to 0. *)
Theorem determineBestProxy_falls_back_to_service `{Lib} (p : Proxy) :
  (Pods p = ∅ -> determineBestProxy p = (p, inr (-1, Service p)))
  /\ (Pods p <> ∅ ->
      (forall i pod, Pods p !! i = Some pod -> Counter pod < 0) ->
      determineBestProxy p = (cleared p, inr (-1, Service p))
      /\ Pods (determineBestProxy p).1 = ∅
      /\ LastPodOrdinal (determineBestProxy p).1 = 0).
Proof.
  split.
  - apply determineBestProxy_empty.
  - intros Hne Hdead.
    assert (Heq : determineBestProxy p = (cleared p, inr (-1, Service p))).
    { unfold determineBestProxy.
      destruct (size (Pods p) =? 0)%nat eqn:Hsize.
      { apply Nat.eqb_eq, map_size_empty_iff in Hsize. done. }
      unfold determineBestProxyOrdinal.
      by rewrite bestOrdinal_loop_all_dead. }
    rewrite Heq. by repeat split.
Qed.

(** C8. A list update whose version is not greater than the stored one
    changes nothing: [shouldUpdateProxyList] answers no, the check before
    the replacement would reject it as well, and the proxy is left as it
    is.  Applying the same list at the same version twice is the same as
    applying it once. *)
Theorem stale_list_update_changes_nothing `{Lib}
    (p : Proxy) (newProxyList : gmap Z string) (version : Z) :
  (version <= Version p ->
     shouldUpdateProxyList p newProxyList version = false
     /\ (Version p <? version) = false
     /\ updateProxyList p newProxyList version = p)
  /\ updateProxyList (updateProxyList p newProxyList version) newProxyList version
     = updateProxyList p newProxyList version.
Proof.
  assert (Hstale : forall q : Proxy, version <= Version q ->
            shouldUpdateProxyList q newProxyList version = false).
  { intros q Hq. unfold shouldUpdateProxyList.
    destruct (version <=? Version q) eqn:E; [done|apply Z.leb_gt in E; lia]. }
  split.
  - intros Hv. split; [by apply Hstale|]. split; [apply Z.ltb_ge; lia|].
    unfold updateProxyList. by rewrite Hstale.
  - unfold updateProxyList at 2 3.
    destruct (shouldUpdateProxyList p newProxyList version) eqn:Hshould.
    + destruct (Version p <? version) eqn:Hv.
      * destruct (rebuildPods (Pods p) newProxyList) as [newPods newLast].
        unfold updateProxyList. rewrite Hstale; [done|]. cbn. lia.
      * unfold updateProxyList. by rewrite Hshould, Hv.
    + unfold updateProxyList. by rewrite Hshould.
Qed.

(** C3, as the code has it.  For a list update whose version is strictly
    greater than the stored one and whose list differs from the table
    (in size, or in an ordinal that is new or has a new address): every
    ordinal of the new list whose pod had the same address keeps its pod,
    a dead marker included; every other ordinal of the new list gets a
    zero-valued pod; ordinals absent from the new list are dropped;
    [Version] becomes the new version and [LastPodOrdinal] the largest
    ordinal of the new list (0 when no ordinal is above 0).  When the list
    does not differ from the table nothing changes, [Version] included. *)
Theorem newer_list_replaces_table_when_it_differs `{Lib}
    (p : Proxy) (newProxyList : gmap Z string) (version : Z)
    (Hnewer : Version p < version) :
  let p' := updateProxyList p newProxyList version in
  (listDiffers (Pods p) newProxyList ->
     (forall i ip pod, newProxyList !! i = Some ip -> Pods p !! i = Some pod ->
        IP pod = ip -> Pods p' !! i = Some pod)
     /\ (forall i ip, newProxyList !! i = Some ip ->
          (Pods p !! i = None \/ exists pod, Pods p !! i = Some pod /\ IP pod <> ip) ->
          Pods p' !! i = Some (newPod ip))
     /\ (forall i, newProxyList !! i = None -> Pods p' !! i = None)
     /\ Version p' = version
     /\ 0 <= LastPodOrdinal p'
     /\ (forall i, is_Some (newProxyList !! i) -> i <= LastPodOrdinal p')
     /\ (LastPodOrdinal p' = 0 \/ is_Some (newProxyList !! LastPodOrdinal p')))
  /\ (~ listDiffers (Pods p) newProxyList -> p' = p).
Proof.
  intros p'. subst p'. unfold updateProxyList.
  pose proof (shouldUpdateProxyList_true p newProxyList version) as Hiff.
  split.
  - intros Hdiff. rewrite (proj2 Hiff) by done.
    rewrite (proj2 (Z.ltb_lt _ _) Hnewer).
    pose proof (rebuildPods_spec (Pods p) newProxyList) as (Hlook & Hnn & Hub & Hatt).
    destruct (rebuildPods (Pods p) newProxyList) as [newPods newLast].
    cbn [fst snd] in *. cbn [Pods Version LastPodOrdinal].
    repeat split; try done.
    + intros i ip pod Hi Hpod Hip. rewrite Hlook, Hi. cbn. unfold keptOrNew.
      rewrite Hpod. by rewrite (proj2 (String.eqb_eq _ _) Hip).
    + intros i ip Hi Hold. rewrite Hlook, Hi. cbn. unfold keptOrNew.
      destruct Hold as [->|(pod & -> & Hip)]; [done|].
      by rewrite (proj2 (String.eqb_neq _ _) Hip).
    + intros i Hi. by rewrite Hlook, Hi.
  - intros Hsame.
    destruct (shouldUpdateProxyList p newProxyList version); [|done].
    exfalso. apply Hsame. by apply Hiff.
Qed.

(** ** The router *)

Section RouterFacts.
Context `{Network}.

Lemma markProxyPodAsDead_config (p : Proxy) i :
  ProxyConfig (markProxyPodAsDead p i) = ProxyConfig p.
Proof. unfold markProxyPodAsDead. by destruct (Pods p !! i). Qed.

Lemma predicted_config (p : Proxy) i : ProxyConfig (predicted p i) = ProxyConfig p.
Proof. unfold predicted. by destruct (0 <=? i). Qed.

Lemma markProxyPodAsDead_lookup (p : Proxy) i pod :
  Pods p !! i = Some pod ->
  Pods (markProxyPodAsDead p i) !! i
  = Some {| IP := IP pod; Timestamp := Timestamp pod; Counter := -1; Free := Free pod |}.
Proof. intros Hi. unfold markProxyPodAsDead. rewrite Hi. cbn. by rewrite lookup_insert_eq. Qed.

Lemma markProxyPodAsDead_lookup_ne (p : Proxy) i j :
  i <> j -> Pods (markProxyPodAsDead p i) !! j = Pods p !! j.
Proof.
  intros Hij. unfold markProxyPodAsDead. destruct (Pods p !! i); [|done].
  cbn. by rewrite lookup_insert_ne.
Qed.

Lemma predicted_lookup (p : Proxy) i pod :
  0 <= i -> Pods p !! i = Some pod ->
  exists pod', Pods (predicted p i) !! i = Some pod'
               /\ IP pod' = IP pod /\ Counter pod' = Counter pod.
Proof.
  intros Hi Hpod. unfold predicted. rewrite (proj2 (Z.leb_le _ _) Hi).
  cbn. rewrite lookup_alter_eq, Hpod. cbn. by eexists.
Qed.

Lemma predicted_lookup_ne (p : Proxy) i j :
  i <> j -> Pods (predicted p i) !! j = Pods p !! j.
Proof.
  intros Hij. unfold predicted. destruct (0 <=? i); [|done].
  cbn. by rewrite lookup_alter_ne.
Qed.

(** The body of the loop once the selection is known. *)
Lemma Do_attempt_selected attempt client (s : DoState) (p1 : Proxy) ordinal u :
  determineBestProxy (st_proxy s) = (p1, inr (ordinal, u)) ->
  Do_attempt attempt client s =
  let p2 := predicted p1 ordinal in
  let req := outbound p2 client (st_req s) u in
  let sent := (st_sent s ++ [req])%list in
  match client_Do (st_world s) req with
  | (inl err, w) =>
      if 0 <=? ordinal then
        if (attempt <? Attempts (ProxyConfig p1)) && isRetryError err
        then Continue (mkDoState (markProxyPodAsDead p2 ordinal) req w sent)
        else Return (inl (TransportError err))
                    (mkDoState (markProxyPodAsDead p2 ordinal) req w sent)
      else Return (inl (TransportError err)) (mkDoState p2 req w sent)
  | (inr resp, w) =>
      match updateKnownProxies p2 (resp_Header resp) (time_Now w) with
      | inl err => Return (inl err) (mkDoState p2 req w sent)
      | inr (_, p3) => Return (inr (stripProxyHeaders resp)) (mkDoState p3 req w sent)
      end
  end.
Proof.
  intros Hsel. unfold Do_attempt. rewrite Hsel. cbn zeta.
  unfold outbound. fold (predicted p1 ordinal).
  destruct (client_Do _ _) as [[err|resp] w]; [|done].
  by rewrite markProxyPodAsDead_config, predicted_config.
Qed.

(** The loop continues only below the attempt bound, and never changes
    the configuration. *)
Lemma Do_attempt_Continue attempt client (s s' : DoState) :
  Do_attempt attempt client s = Continue s' ->
  attempt < Attempts (ProxyConfig (st_proxy s))
  /\ ProxyConfig (st_proxy s') = ProxyConfig (st_proxy s).
Proof.
  destruct (determineBestProxy (st_proxy s)) as [p1 [e|[ordinal u]]] eqn:Hsel.
  { unfold Do_attempt. by rewrite Hsel. }
  rewrite (Do_attempt_selected _ _ _ _ _ _ Hsel). cbn zeta.
  pose proof (determineBestProxy_config (st_proxy s)) as Hcfg.
  rewrite Hsel in Hcfg. cbn in Hcfg.
  destruct (client_Do _ _) as [[err|resp] w].
  - destruct (0 <=? ordinal); [|done].
    destruct (attempt <? Attempts (ProxyConfig p1)) eqn:Hlt; [|done].
    destruct (isRetryError err); [|done]. intros [= <-]. cbn.
    rewrite markProxyPodAsDead_config, predicted_config, <- Hcfg.
    split; [by apply Z.ltb_lt|done].
  - by destruct (updateKnownProxies _ _ _) as [?|[? ?]].
Qed.

(** Enough fuel: the passes left below the attempt bound. *)
Lemma Do_loop_total client (fuel : nat) :
  forall attempt (s : DoState),
    0 <= attempt ->
    Attempts (ProxyConfig (st_proxy s)) <= MaxUint64 ->
    Attempts (ProxyConfig (st_proxy s)) - attempt <= Z.of_nat fuel ->
    is_Some (Do_loop fuel attempt client s).
Proof.
  induction fuel as [|fuel IH]; intros attempt s Hnn Hmax Hfuel.
  - cbn. destruct (Do_attempt attempt client s) as [r s'|s'] eqn:Hstep; [by eexists|].
    apply Do_attempt_Continue in Hstep as [Hlt _]. lia.
  - cbn. destruct (Do_attempt attempt client s) as [r s'|s'] eqn:Hstep; [by eexists|].
    apply Do_attempt_Continue in Hstep as [Hlt Hcfg].
    assert (Hsucc : uint_succ attempt = attempt + 1).
    { unfold uint_succ. apply Z.mod_small. unfold MaxUint64 in Hmax. lia. }
    rewrite Hsucc. apply IH; rewrite ?Hcfg; lia.
Qed.

(** [Do] returns: its loop ends within the attempt bound. *)
Lemma Do_total (p : Proxy) client (req : Request) (w : World) :
  uint_range (Attempts (ProxyConfig p)) ->
  is_Some (Do p client req w).
Proof.
  intros [Hlo Hhi]. unfold Do. apply Do_loop_total; cbn; lia.
Qed.

(** The headers of the request handed to [client.Do]. *)
Lemma outbound_Forward_To (p : Proxy) client (req : Request) (u : URL) :
  Header_Get (req_Header (outbound p client req u)) "Proxy-Forward-To"
  = URL_String (req_URL req).
Proof.
  unfold outbound, setProxyHeaders, Header_Get, Header_Set. cbn.
  destruct (InsecureSkipVerify client).
  - rewrite lookup_insert_ne by done. rewrite lookup_insert_ne by done.
    by rewrite lookup_insert_eq.
  - rewrite lookup_insert_ne by done. by rewrite lookup_insert_eq.
Qed.

(** What the stripping of the response removes and what it leaves. *)
Lemma stripProxyHeaders_lookup (resp : Response) (name : string) :
  resp_Header (stripProxyHeaders resp) !! name
  = if bool_decide (name ∈ ["Proxy-Free"; "Proxy-Ordinal"; "Proxy-Version"; "Proxy-List"])
    then None else resp_Header resp !! name.
Proof.
  unfold stripProxyHeaders, Header_Del. cbn.
  case_bool_decide as Hin.
  - repeat (apply elem_of_cons in Hin as [->|Hin]);
      [..|by apply elem_of_nil in Hin];
      repeat first [ apply lookup_delete_eq | rewrite lookup_delete_ne by done ].
  - rewrite !lookup_delete_ne; [done|..]; intros <-; apply Hin;
      repeat first [ apply list_elem_of_here | apply list_elem_of_further ].
Qed.

(** *** Unreadable headers *)

Lemma unreadable_missing (h : Header) (name : string) :
  name ∈ requiredHeaders -> h !! name = None -> unreadable h name = true.
Proof.
  intros Hin Hnone. unfold unreadable, Header_Get. rewrite Hnone.
  destruct (String.eqb name "Proxy-List"); [|done].
  unfold parseProxyList. by destruct json_Unmarshal_empty as [e ->].
Qed.

Lemma parseIntHeader_inl (h : Header) (name : string) (e : error) :
  String.eqb name "Proxy-List" = false ->
  parseIntHeader h name = inl e ->
  unreadable h name = true /\ exists cause, e = ParsingError name cause.
Proof.
  unfold parseIntHeader, unreadable. intros ->.
  destruct (strconv_ParseInt _); [|done]. intros [= <-]. by eauto.
Qed.

Lemma parseIntHeader_inr (h : Header) (name : string) (v : Z) :
  String.eqb name "Proxy-List" = false ->
  parseIntHeader h name = inr v -> unreadable h name = false.
Proof.
  unfold parseIntHeader, unreadable. intros ->. by destruct (strconv_ParseInt _).
Qed.

(** The parse fails exactly when a required header is unreadable, with
    an error that carries the name of an unreadable header. *)
Lemma parseProxyHeaders_unreadable (h : Header) :
  (exists name, name ∈ requiredHeaders /\ unreadable h name = true) ->
  exists name cause,
    name ∈ requiredHeaders /\ unreadable h name = true
    /\ parseProxyHeaders h = inl (ParsingError name cause).
Proof.
  intros Hbad. unfold parseProxyHeaders.
  assert (Hmem : forall name, name ∈ requiredHeaders <->
            name = "Proxy-Free" \/ name = "Proxy-Ordinal" \/ name = "Proxy-Version"
            \/ name = "Proxy-Counter" \/ name = "Proxy-Status" \/ name = "Proxy-List").
  { intros name. unfold requiredHeaders. rewrite !elem_of_cons, elem_of_nil. tauto. }
  destruct (parseIntHeader h "Proxy-Free") as [e|free] eqn:E1.
  { apply parseIntHeader_inl in E1 as [Hu [cause ->]]; [|done].
    exists "Proxy-Free", cause. rewrite Hmem. by auto. }
  destruct (parseIntHeader h "Proxy-Ordinal") as [e|ordinal] eqn:E2.
  { apply parseIntHeader_inl in E2 as [Hu [cause ->]]; [|done].
    exists "Proxy-Ordinal", cause. rewrite Hmem. by auto. }
  destruct (parseIntHeader h "Proxy-Version") as [e|vers] eqn:E3.
  { apply parseIntHeader_inl in E3 as [Hu [cause ->]]; [|done].
    exists "Proxy-Version", cause. rewrite Hmem. by auto 10. }
  destruct (parseIntHeader h "Proxy-Counter") as [e|counter] eqn:E4.
  { apply parseIntHeader_inl in E4 as [Hu [cause ->]]; [|done].
    exists "Proxy-Counter", cause. rewrite Hmem. by auto 10. }
  destruct (parseIntHeader h "Proxy-Status") as [e|status] eqn:E5.
  { apply parseIntHeader_inl in E5 as [Hu [cause ->]]; [|done].
    exists "Proxy-Status", cause. rewrite Hmem. by auto 10. }
  destruct (parseProxyList (Header_Get h "Proxy-List")) as [e|l] eqn:E6.
  { exists "Proxy-List", (JSONError e). rewrite Hmem. split; [by auto 10|].
    split; [|done]. unfold unreadable. cbn [String.eqb Ascii.eqb]. cbn.
    by rewrite E6. }
  exfalso. destruct Hbad as (name & Hin & Hu).
  apply parseIntHeader_inr in E1, E2, E3, E4, E5; try done.
  apply Hmem in Hin as [->|[->|[->|[->|[->| ->]]]]]; try congruence.
  unfold unreadable in Hu. cbn in Hu. by rewrite E6 in Hu.
Qed.

Lemma updateKnownProxies_unreadable (p : Proxy) (h : Header) (now : Z) :
  (exists name, name ∈ requiredHeaders /\ unreadable h name = true) ->
  exists name cause,
    name ∈ requiredHeaders /\ unreadable h name = true
    /\ updateKnownProxies p h now = inl (ParsingError name cause).
Proof.
  intros Hbad. destruct (parseProxyHeaders_unreadable h Hbad) as (name & cause & ? & ? & E).
  exists name, cause. unfold updateKnownProxies. by rewrite E.
Qed.

End RouterFacts.

(** C6. When the call of an attempt fails: against a pod (ordinal not
    negative) with a connection error ("connection timed out" or
    "connection refused" in the error text) and an attempt number strictly
    below [Attempts], the pod is marked dead and the loop goes on with the
    next attempt, which selects again; against a pod with any other error,
    or with the attempt bound reached, the error is returned; against the
    service URL (ordinal -1) every error is returned. *)
Theorem Do_retries_connection_errors_against_pods `{Network}
    (attempt : Z) (client : Client) (s : DoState)
    (p1 : Proxy) (ordinal : Z) (u : URL) (err : string) (w' : World)
    (Hsel : determineBestProxy (st_proxy s) = (p1, inr (ordinal, u)))
    (Herr : client_Do (st_world s)
              (outbound (predicted p1 ordinal) client (st_req s) u) = (inl err, w')) :
  let req := outbound (predicted p1 ordinal) client (st_req s) u in
  let sent := (st_sent s ++ [req])%list in
  let marked := mkDoState (markProxyPodAsDead (predicted p1 ordinal) ordinal) req w' sent in
  (0 <= ordinal -> isRetryError err = true ->
   attempt < Attempts (ProxyConfig (st_proxy s)) ->
     Do_attempt attempt client s = Continue marked
     /\ (exists pod, Pods (st_proxy marked) !! ordinal = Some pod /\ Counter pod = -1)
     /\ forall fuel, Do_loop (S fuel) attempt client s
                     = Do_loop fuel (uint_succ attempt) client marked)
  /\ (0 <= ordinal ->
      isRetryError err = false \/ Attempts (ProxyConfig (st_proxy s)) <= attempt ->
        Do_attempt attempt client s = Return (inl (TransportError err)) marked
        /\ forall fuel, Do_loop fuel attempt client s
                        = Some (inl (TransportError err), marked))
  /\ (ordinal < 0 ->
        Do_attempt attempt client s
        = Return (inl (TransportError err)) (mkDoState p1 req w' sent)
        /\ forall fuel, Do_loop fuel attempt client s
                        = Some (inl (TransportError err), mkDoState p1 req w' sent)).
Proof.
  intros req sent marked.
  pose proof (Do_attempt_selected attempt client s p1 ordinal u Hsel) as Hstep.
  cbn zeta in Hstep. rewrite Herr in Hstep.
  pose proof (determineBestProxy_config (st_proxy s)) as Hcfg.
  rewrite Hsel in Hcfg. cbn in Hcfg. rewrite Hcfg in Hstep.
  split; [|split].
  - intros Hord Hretry Hlt.
    rewrite (proj2 (Z.leb_le _ _) Hord), (proj2 (Z.ltb_lt _ _) Hlt), Hretry in Hstep.
    split; [exact Hstep|]. split.
    + destruct (determineBestProxy_cases _ _ _ _ Hsel) as [(? & _)|(_ & -> & pod & Hpod & _)];
        [lia|].
      destruct (predicted_lookup (st_proxy s) ordinal pod Hord Hpod) as (pod' & Hpod' & _).
      eexists. split; [apply (markProxyPodAsDead_lookup _ _ _ Hpod')|done].
    + intros fuel. cbn [Do_loop]. by rewrite Hstep.
  - intros Hord Hstop. rewrite (proj2 (Z.leb_le _ _) Hord) in Hstep.
    assert (Hno : (attempt <? Attempts (ProxyConfig (st_proxy s))) && isRetryError err = false).
    { destruct Hstop as [->|Hge]; [apply andb_false_r|].
      by rewrite (proj2 (Z.ltb_ge _ _) Hge). }
    rewrite Hno in Hstep. split; [exact Hstep|].
    intros fuel. destruct fuel; cbn [Do_loop]; by rewrite Hstep.
  - intros Hneg. rewrite (proj2 (Z.leb_gt _ _) Hneg) in Hstep.
    assert (Hp : predicted p1 ordinal = p1).
    { unfold predicted. by rewrite (proj2 (Z.leb_gt _ _) Hneg). }
    subst req sent. rewrite Hp in *. split; [exact Hstep|].
    intros fuel. destruct fuel; cbn [Do_loop]; by rewrite Hstep.
Qed.

(** C10. When the call of an attempt fails against a pod (ordinal not
    negative), the pod is marked dead, its counter set to -1, whatever the
    error is and whether the loop goes on or returns the error: an error
    that is not a connection error is returned, with the pod marked.  The
    other pods are as the selection and the decrement left them.  Against
    the service URL (ordinal -1) nothing is marked: the proxy is the one
    that the selection left. *)
Theorem Do_marks_pod_dead_on_any_transport_error `{Network}
    (attempt : Z) (client : Client) (s : DoState)
    (p1 : Proxy) (ordinal : Z) (u : URL) (err : string) (w' : World)
    (Hsel : determineBestProxy (st_proxy s) = (p1, inr (ordinal, u)))
    (Herr : client_Do (st_world s)
              (outbound (predicted p1 ordinal) client (st_req s) u) = (inl err, w')) :
  (0 <= ordinal ->
     exists s' pod,
       (Do_attempt attempt client s = Continue s'
        \/ Do_attempt attempt client s = Return (inl (TransportError err)) s')
       /\ (isRetryError err = false ->
           Do_attempt attempt client s = Return (inl (TransportError err)) s')
       /\ Pods (st_proxy s) !! ordinal = Some pod
       /\ Pods (st_proxy s') !! ordinal
          = Some {| IP := IP pod; Timestamp := Timestamp pod; Counter := -1;
                    Free := wrap64 (Free pod + wrap64 (-1 * wrap64
                              (NumberOfSenders (ProxyConfig (st_proxy s))))) |}
       /\ forall j, j <> ordinal -> Pods (st_proxy s') !! j = Pods (st_proxy s) !! j)
  /\ (ordinal < 0 ->
      exists s',
        Do_attempt attempt client s = Return (inl (TransportError err)) s'
        /\ st_proxy s' = p1
        /\ (p1 = st_proxy s \/ p1 = cleared (st_proxy s))
        /\ (Pods (st_proxy s) = ∅ -> st_proxy s' = st_proxy s)).
Proof.
  pose proof (Do_attempt_selected attempt client s p1 ordinal u Hsel) as Hstep.
  cbn zeta in Hstep. rewrite Herr in Hstep.
  split.
  - intros Hord. rewrite (proj2 (Z.leb_le _ _) Hord) in Hstep.
    destruct (determineBestProxy_cases _ _ _ _ Hsel) as [(? & _)|(_ & -> & pod & Hpod & _)];
      [lia|].
    eexists (mkDoState (markProxyPodAsDead (predicted (st_proxy s) ordinal) ordinal) _ _ _), pod.
    split; [|split; [|split; [exact Hpod|split]]].
    + destruct (_ && _); [by left|by right].
    + intros Hno. by rewrite Hno, andb_false_r in Hstep.
    + cbn [st_proxy].
      assert (Hpred : Pods (predicted (st_proxy s) ordinal) !! ordinal
                = Some {| IP := IP pod; Timestamp := Timestamp pod; Counter := Counter pod;
                          Free := wrap64 (Free pod + wrap64 (-1 * wrap64
                                    (NumberOfSenders (ProxyConfig (st_proxy s))))) |}).
      { unfold predicted. rewrite (proj2 (Z.leb_le _ _) Hord). cbn.
        by rewrite lookup_alter_eq, Hpod. }
      by rewrite (markProxyPodAsDead_lookup _ _ _ Hpred).
    + intros j Hj. cbn [st_proxy].
      rewrite markProxyPodAsDead_lookup_ne by done.
      by rewrite predicted_lookup_ne.
  - intros Hneg. rewrite (proj2 (Z.leb_gt _ _) Hneg) in Hstep.
    assert (Hp : predicted p1 ordinal = p1).
    { unfold predicted. by rewrite (proj2 (Z.leb_gt _ _) Hneg). }
    rewrite Hp in Hstep. eexists. split; [exact Hstep|]. cbn [st_proxy].
    split; [done|].
    destruct (determineBestProxy_cases _ _ _ _ Hsel) as [(_ & _ & Hp1)|(? & _)]; [|lia].
    split; [exact Hp1|]. intros Hempty.
    destruct Hp1 as [->| ->]; [done|].
    rewrite (determineBestProxy_empty _ Hempty) in Hsel. by simplify_eq.
Qed.

(** C9. A required response header that is missing is unreadable, and a
    response with an unreadable required header (an integer that does not
    parse, a list that does not decode) is fatal for the call:
    [updateKnownProxies] fails with the error "error parsing" of an
    unreadable header and changes nothing; [Do] returns this error at once,
    whatever the attempt number and the attempt bound, without another
    call of the client; and so does [Ensure]. *)
Theorem unreadable_header_is_returned_without_retry `{Network} :
  (forall (h : Header) name,
     name ∈ requiredHeaders -> h !! name = None -> unreadable h name = true)
  /\ (forall (p : Proxy) (h : Header) (now : Z),
        (exists name, name ∈ requiredHeaders /\ unreadable h name = true) ->
        exists name cause,
          name ∈ requiredHeaders /\ unreadable h name = true
          /\ updateKnownProxies p h now = inl (ParsingError name cause))
  /\ (forall attempt client (s : DoState) (p1 : Proxy) ordinal (u : URL)
             (resp : Response) (w' : World),
        determineBestProxy (st_proxy s) = (p1, inr (ordinal, u)) ->
        client_Do (st_world s) (outbound (predicted p1 ordinal) client (st_req s) u)
        = (inr resp, w') ->
        (exists name, name ∈ requiredHeaders /\ unreadable (resp_Header resp) name = true) ->
        exists name cause,
          name ∈ requiredHeaders /\ unreadable (resp_Header resp) name = true
          /\ let req := outbound (predicted p1 ordinal) client (st_req s) u in
             let s' := mkDoState (predicted p1 ordinal) req w' (st_sent s ++ [req])%list in
             Do_attempt attempt client s = Return (inl (ParsingError name cause)) s'
             /\ forall fuel, Do_loop fuel attempt client s
                             = Some (inl (ParsingError name cause), s'))
  /\ (forall (p : Proxy) client ensureRequests (w : World) (req0 : Request)
             (resp : Response) (w' : World),
        http_NewRequest "POST" (URL_String (Service p)) = inr req0 ->
        let req := {| Method := Method req0; req_URL := req_URL req0;
                      req_Header := Header_Set (req_Header req0) "Proxy-Ensure-Requests"
                                      (strconv_Itoa ensureRequests) |} in
        client_Do w req = (inr resp, w') ->
        (exists name, name ∈ requiredHeaders /\ unreadable (resp_Header resp) name = true) ->
        exists name cause,
          name ∈ requiredHeaders /\ unreadable (resp_Header resp) name = true
          /\ Ensure p client ensureRequests w
             = (Some (ParsingError name cause), p, w', [req])).
Proof.
  split; [exact unreadable_missing|]. split; [exact updateKnownProxies_unreadable|].
  split.
  - intros attempt client s p1 ordinal u resp w' Hsel Hresp Hbad.
    destruct (updateKnownProxies_unreadable (predicted p1 ordinal) (resp_Header resp)
                (time_Now w') Hbad) as (name & cause & Hin & Hu & Hfail).
    exists name, cause. split; [exact Hin|]. split; [exact Hu|]. cbn zeta.
    pose proof (Do_attempt_selected attempt client s p1 ordinal u Hsel) as Hstep.
    cbn zeta in Hstep. rewrite Hresp, Hfail in Hstep.
    split; [exact Hstep|].
    intros fuel. destruct fuel; cbn [Do_loop]; by rewrite Hstep.
  - intros p client n w req0 resp w' Hreq req Hresp Hbad.
    destruct (updateKnownProxies_unreadable p (resp_Header resp)
                (time_Now w') Hbad) as (name & cause & Hin & Hu & Hfail).
    exists name, cause. split; [exact Hin|]. split; [exact Hu|].
    unfold Ensure. rewrite Hreq. fold req. by rewrite Hresp, Hfail.
Qed.

(** ** The response returned by [Do] and the requests it sends *)

(** Every response that [Do] returns went through [updateKnownProxies],
    so its Proxy-Counter header is readable; the stripping leaves it in. *)
Lemma Do_attempt_response_keeps_Proxy_Counter `{Network}
    attempt client (s s' : DoState) (resp' : Response) :
  Do_attempt attempt client s = Return (inr resp') s' ->
  (exists c, strconv_ParseInt (Header_Get (resp_Header resp') "Proxy-Counter") = inr c)
  /\ is_Some (resp_Header resp' !! "Proxy-Counter")
  /\ resp_Header resp' !! "Proxy-Free" = None
  /\ resp_Header resp' !! "Proxy-Ordinal" = None
  /\ resp_Header resp' !! "Proxy-Version" = None
  /\ resp_Header resp' !! "Proxy-List" = None.
Proof.
  destruct (determineBestProxy (st_proxy s)) as [p1 [e|[ordinal u]]] eqn:Hsel.
  { unfold Do_attempt. by rewrite Hsel. }
  rewrite (Do_attempt_selected _ _ _ _ _ _ Hsel). cbn zeta.
  destruct (client_Do _ _) as [[err|resp] w].
  { destruct (0 <=? ordinal); [destruct (_ && _)|]; done. }
  destruct (updateKnownProxies _ _ _) as [e|[status p3]] eqn:Hupd; [done|].
  intros [= <- <-].
  assert (Hc : exists c, strconv_ParseInt (Header_Get (resp_Header resp) "Proxy-Counter") = inr c).
  { unfold updateKnownProxies, parseProxyHeaders in Hupd.
    destruct (parseIntHeader _ "Proxy-Free"); [done|].
    destruct (parseIntHeader _ "Proxy-Ordinal"); [done|].
    destruct (parseIntHeader _ "Proxy-Version"); [done|].
    unfold parseIntHeader in Hupd at 1.
    destruct (strconv_ParseInt (Header_Get (resp_Header resp) "Proxy-Counter")); [done|].
    by eexists. }
  assert (Hsame : resp_Header (stripProxyHeaders resp) !! "Proxy-Counter"
                  = resp_Header resp !! "Proxy-Counter").
  { by rewrite stripProxyHeaders_lookup. }
  split; [|split].
  - unfold Header_Get in *. by rewrite Hsame.
  - rewrite Hsame. destruct Hc as [c Hc]. unfold Header_Get in Hc.
    destruct (resp_Header resp !! "Proxy-Counter"); [by eexists|done].
  - by rewrite !stripProxyHeaders_lookup.
Qed.

(** An attempt writes to Proxy-Forward-To the URL that the request has
    when the attempt starts, and leaves the request with the URL of the
    proxy it was sent to. *)
Lemma Do_attempt_Continue_request `{Network} attempt client (s s' : DoState) :
  Do_attempt attempt client s = Continue s' ->
  exists (p1 : Proxy) ordinal (u : URL) sent,
    determineBestProxy (st_proxy s) = (p1, inr (ordinal, u))
    /\ st_sent s' = (st_sent s ++ [sent])%list
    /\ st_req s' = sent
    /\ req_URL sent = u
    /\ Header_Get (req_Header sent) "Proxy-Forward-To" = URL_String (req_URL (st_req s)).
Proof.
  destruct (determineBestProxy (st_proxy s)) as [p1 [e|[ordinal u]]] eqn:Hsel.
  { unfold Do_attempt. by rewrite Hsel. }
  rewrite (Do_attempt_selected _ _ _ _ _ _ Hsel). cbn zeta.
  destruct (client_Do _ _) as [[err|resp] w].
  - destruct (0 <=? ordinal); [|done]. destruct (_ && _); [|done].
    intros [= <-]. exists p1, ordinal, u. eexists. split; [done|]. cbn.
    split; [done|]. split; [done|]. split; [done|]. apply outbound_Forward_To.
  - by destruct (updateKnownProxies _ _ _) as [?|[? ?]].
Qed.

(** ** More on the registry *)

Section RegistryMore.
Context `{Lib}.

Lemma Proxy_eq (p q : Proxy) :
  Service p = Service q -> Version p = Version q -> Pods p = Pods q ->
  LastPodOrdinal p = LastPodOrdinal q -> ProxyConfig p = ProxyConfig q -> p = q.
Proof. destruct p, q. cbn. by intros -> -> -> -> ->. Qed.

Lemma updateProxyPod_lookup (p : Proxy) i c f now j :
  Pods (updateProxyPod p i c f now) !! j
  = if decide (j = i)
    then (fun pod => if c <=? Counter pod then pod
                     else {| IP := IP pod; Timestamp := now; Counter := c; Free := f |})
         <$> Pods p !! i
    else Pods p !! j.
Proof.
  unfold updateProxyPod. case_decide as Hj.
  - subst j. destruct (Pods p !! i) as [pod|] eqn:Hi; [|by rewrite Hi].
    cbn. destruct (c <=? Counter pod); [by rewrite Hi|].
    cbn. by rewrite lookup_insert_eq.
  - destruct (Pods p !! i) as [pod|]; [|done].
    destruct (c <=? Counter pod); [done|]. cbn. by rewrite lookup_insert_ne.
Qed.

Lemma updateProxyPod_fields (p : Proxy) i c f now :
  Service (updateProxyPod p i c f now) = Service p
  /\ Version (updateProxyPod p i c f now) = Version p
  /\ LastPodOrdinal (updateProxyPod p i c f now) = LastPodOrdinal p
  /\ ProxyConfig (updateProxyPod p i c f now) = ProxyConfig p.
Proof.
  unfold updateProxyPod. destruct (Pods p !! i) as [pod|]; [|done].
  by destruct (c <=? Counter pod).
Qed.

Lemma newestCounter_le i c updates : c <= newestCounter i c updates.
Proof.
  revert c. induction updates as [|u updates IH]; intros c; cbn; [lia|].
  destruct (su_ordinal u =? i); [|apply IH].
  etrans; [|apply IH]. lia.
Qed.

(** X1. After any sequence of stat updates the counter of a known pod is
    the largest of its stored counter and the counters the sequence
    brought for it, whatever the order of arrival; and the pod is either
    untouched or carries the free count and time of one of these
    updates. *)
Theorem updateProxyPods_keeps_newest (updates : list StatUpdate) :
  forall (p : Proxy) i pod,
    Pods p !! i = Some pod ->
    exists pod',
      Pods (updateProxyPods p updates) !! i = Some pod'
      /\ Counter pod' = newestCounter i (Counter pod) updates
      /\ (pod' = pod
          \/ exists u, u ∈ updates /\ su_ordinal u = i
               /\ pod' = {| IP := IP pod; Timestamp := su_now u;
                            Counter := su_counter u; Free := su_free u |}).
Proof.
  induction updates as [|u updates IH]; intros p i pod Hpod.
  - exists pod. by auto.
  - cbn [updateProxyPods foldl newestCounter].
    set (p1 := updateProxyPod p (su_ordinal u) (su_counter u) (su_free u) (su_now u)).
    pose proof (updateProxyPod_lookup p (su_ordinal u) (su_counter u) (su_free u)
                  (su_now u) i) as Hlook. fold p1 in Hlook.
    destruct (decide (i = su_ordinal u)) as [Heq|Hne].
    + rewrite <- Heq, Hpod in Hlook. cbn in Hlook. rewrite <- Heq, Z.eqb_refl.
      destruct (su_counter u <=? Counter pod) eqn:Hc.
      * apply Z.leb_le in Hc. destruct (IH p1 i pod Hlook) as (pod' & H' & Hcnt & Hsrc).
        exists pod'. split; [exact H'|]. split.
        { rewrite Hcnt. f_equal. lia. }
        destruct Hsrc as [->|(u' & Hin & ? & ?)]; [by left|right].
        exists u'. split; [by apply list_elem_of_further|done].
      * apply Z.leb_gt in Hc. destruct (IH p1 i _ Hlook) as (pod' & H' & Hcnt & Hsrc).
        exists pod'. split; [exact H'|]. split.
        { rewrite Hcnt. cbn. f_equal. lia. }
        right. destruct Hsrc as [->|(u' & Hin & ? & ->)].
        -- exists u. split; [apply list_elem_of_here|]. split; [done|]. done.
        -- exists u'. split; [by apply list_elem_of_further|]. split; [done|]. done.
    + rewrite Hpod in Hlook.
      destruct (IH p1 i pod Hlook) as (pod' & H' & Hcnt & Hsrc).
      exists pod'. split; [exact H'|].
      rewrite (proj2 (Z.eqb_neq _ _)) by congruence. split; [exact Hcnt|].
      destruct Hsrc as [->|(u' & Hin & ? & ?)]; [by left|right].
      exists u'. split; [by apply list_elem_of_further|done].
Qed.

(** X2. A stat update is idempotent: applying it a second time, even at
    a later time, changes nothing. *)
Theorem updateProxyPod_idempotent (p : Proxy) (i c f : Z) (now later : Z) :
  updateProxyPod (updateProxyPod p i c f now) i c f later
  = updateProxyPod p i c f now.
Proof.
  pose proof (updateProxyPod_fields (updateProxyPod p i c f now) i c f later)
    as (? & ? & ? & ?).
  apply Proxy_eq; try done.
  apply map_eq. intros j. rewrite updateProxyPod_lookup. case_decide as Hj; [|done].
  subst j. rewrite !updateProxyPod_lookup. rewrite decide_True by done.
  destruct (Pods p !! i) as [pod|]; [|done]. cbn. f_equal.
  destruct (c <=? Counter pod) eqn:Hc; [by rewrite Hc|].
  cbn. by rewrite Z.leb_refl.
Qed.

(** X3. Two stat updates commute when they are for different pods or
    carry different counters: the order of arrival does not matter. *)
Theorem updateProxyPod_commutes (p : Proxy) (i1 c1 f1 t1 i2 c2 f2 t2 : Z)
    (Hdistinct : i1 <> i2 \/ c1 <> c2) :
  updateProxyPod (updateProxyPod p i1 c1 f1 t1) i2 c2 f2 t2
  = updateProxyPod (updateProxyPod p i2 c2 f2 t2) i1 c1 f1 t1.
Proof.
  pose proof (updateProxyPod_fields (updateProxyPod p i1 c1 f1 t1) i2 c2 f2 t2)
    as (? & ? & ? & ?).
  pose proof (updateProxyPod_fields (updateProxyPod p i2 c2 f2 t2) i1 c1 f1 t1)
    as (? & ? & ? & ?).
  pose proof (updateProxyPod_fields p i1 c1 f1 t1) as (? & ? & ? & ?).
  pose proof (updateProxyPod_fields p i2 c2 f2 t2) as (? & ? & ? & ?).
  apply Proxy_eq; try congruence.
  apply map_eq. intros j. rewrite !updateProxyPod_lookup.
  repeat case_decide; subst; try done; try congruence.
  destruct Hdistinct as [?|Hc]; [done|].
  match goal with
  | |- context [Pods p !! ?k] => destruct (Pods p !! k) as [pod|]; [|done]
  end.
  cbn. f_equal.
  destruct (c1 <=? Counter pod) eqn:E1, (c2 <=? Counter pod) eqn:E2; cbn;
    rewrite ?E1, ?E2; try done.
  - destruct (c1 <=? c2) eqn:E3; [done|].
    apply Z.leb_le in E1. apply Z.leb_gt in E2, E3. lia.
  - destruct (c2 <=? c1) eqn:E3; [done|].
    apply Z.leb_le in E2. apply Z.leb_gt in E1, E3. lia.
  - destruct (c2 <=? c1) eqn:E3, (c1 <=? c2) eqn:E4; try done.
    + apply Z.leb_le in E3, E4. lia.
    + apply Z.leb_gt in E3, E4. lia.
Qed.

(** X4. A pod marked dead is not selected: as long as nothing revives it,
    the scan never returns the ordinal that [markProxyPodAsDead] was
    called for. *)
Theorem dead_pod_is_not_selected (p : Proxy) (i : Z) (Hi : 0 <= i) :
  determineBestProxyOrdinal (markProxyPodAsDead p i) <> i.
Proof.
  intros Heq.
  destruct (determineBestProxyOrdinal_spec (markProxyPodAsDead p i))
    as [[Hr|(_ & pod & [Hpod Halive] & _)] _]; [lia|].
  rewrite Heq in Hpod. unfold markProxyPodAsDead in Hpod.
  destruct (Pods p !! i) as [pod0|] eqn:H0.
  - cbn in Hpod. rewrite lookup_insert_eq in Hpod. injection Hpod as <-.
    cbn in Halive. lia.
  - congruence.
Qed.

(** X5. The selection returns a pod exactly when some pod with an ordinal
    from 0 to [LastPodOrdinal] is alive with a free count above
    -MaxInt64; it then leaves the proxy as it is.  Otherwise it returns
    ordinal -1 with the service URL. *)
Theorem determineBestProxy_finds_pod_iff_usable (p : Proxy) :
  (0 <= determineBestProxyOrdinal p
   <-> exists i pod, 0 <= i <= LastPodOrdinal p /\ eligible (Pods p) i pod
                     /\ - MaxInt64 < Free pod)
  /\ (0 <= determineBestProxyOrdinal p ->
      (determineBestProxy p).1 = p
      /\ forall u, (determineBestProxy p).2 = inr u -> u.1 = determineBestProxyOrdinal p)
  /\ (determineBestProxyOrdinal p < 0 ->
      (determineBestProxy p).2 = inr (-1, Service p)).
Proof.
  destruct (determineBestProxyOrdinal_spec p) as (H1 & H2 & H3). cbn zeta in *.
  set (r := determineBestProxyOrdinal p) in *.
  split; [split|split].
  - intros Hr. destruct H1 as [?|(Hrange & pod & Hel & Hfree)]; [lia|].
    by exists r, pod.
  - intros (i & pod & Hi & Hel & Hfree).
    destruct (Z.lt_ge_cases r 0) as [Hneg|]; [exfalso|done].
    assert (Hr : r = -1) by (destruct H1 as [?|[? _]]; lia).
    assert (Hbest : bestFreeOf (Pods p) r = - MaxInt64) by (by rewrite Hr).
    rewrite Hbest in *.
    destruct (decide (i = LastPodOrdinal p)) as [->|Hne].
    + destruct (H3 pod) as [_ Hlast]; [lia|done|].
      assert (Free pod <= - MaxInt64); [|lia]. apply Hlast.
      intros j podj Hj Helj. destruct (H2 j podj Hj Helj) as [? _].
      unfold MaxInt64 in *. lia.
    + destruct (H2 i pod) as [? _]; [lia|done|lia].
  - intros Hr. unfold determineBestProxy. fold r.
    destruct (size (Pods p) =? 0)%nat eqn:Hsize.
    { exfalso. apply Nat.eqb_eq, map_size_empty_iff in Hsize.
      destruct H1 as [?|(_ & pod & [Hpod _] & _)]; [lia|].
      rewrite Hsize, lookup_empty in Hpod. done. }
    rewrite (proj2 (Z.ltb_ge _ _) Hr).
    destruct (url_Parse _); cbn; (split; [done|]); intros u' [= <-]; done.
  - intros Hr. unfold determineBestProxy. fold r.
    destruct (size (Pods p) =? 0)%nat; [done|].
    by rewrite (proj2 (Z.ltb_lt _ _) Hr).
Qed.

End RegistryMore.

(** ** More on the list of proxies *)

Section ListMore.
Context `{Lib}.

Lemma keptOrNew_IP (pods : gmap Z Pod) i ip : IP (keptOrNew pods i ip) = ip.
Proof.
  unfold keptOrNew. destruct (pods !! i) as [pod|]; [|done].
  destruct (String.eqb (IP pod) ip) eqn:E; [by apply String.eqb_eq|done].
Qed.

Lemma updateProxyList_replaced (p : Proxy) newProxyList version :
  shouldUpdateProxyList p newProxyList version = true ->
  updateProxyList p newProxyList version
  = {| Service := Service p; Version := version;
       Pods := (rebuildPods (Pods p) newProxyList).1;
       LastPodOrdinal := (rebuildPods (Pods p) newProxyList).2;
       ProxyConfig := ProxyConfig p |}.
Proof.
  intros Hshould. pose proof Hshould as [Hv _]%shouldUpdateProxyList_true.
  unfold updateProxyList. rewrite Hshould, (proj2 (Z.ltb_lt _ _) Hv).
  by destruct (rebuildPods _ _).
Qed.

Lemma updateProxyList_cases (p : Proxy) newProxyList version :
  (shouldUpdateProxyList p newProxyList version = false
   /\ updateProxyList p newProxyList version = p)
  \/ (Version p < version
      /\ updateProxyList p newProxyList version
         = {| Service := Service p; Version := version;
              Pods := (rebuildPods (Pods p) newProxyList).1;
              LastPodOrdinal := (rebuildPods (Pods p) newProxyList).2;
              ProxyConfig := ProxyConfig p |}).
Proof.
  destruct (shouldUpdateProxyList p newProxyList version) eqn:Hshould.
  - right. split; [by apply shouldUpdateProxyList_true in Hshould as [? _]|].
    by apply updateProxyList_replaced.
  - left. split; [done|]. unfold updateProxyList. by rewrite Hshould.
Qed.

(** X6. After a list update that replaces the table, the addresses of
    the table are exactly the new list, ordinal by ordinal; the same list
    is then never applied again, whatever its version. *)
Theorem replaced_table_mirrors_list (p : Proxy) (newProxyList : gmap Z string)
    (version : Z)
    (Hshould : shouldUpdateProxyList p newProxyList version = true) :
  let p' := updateProxyList p newProxyList version in
  IP <$> Pods p' = newProxyList
  /\ size (Pods p') = size newProxyList
  /\ forall version', shouldUpdateProxyList p' newProxyList version' = false.
Proof.
  intros p'. subst p'. rewrite (updateProxyList_replaced _ _ _ Hshould).
  cbn [Pods].
  destruct (rebuildPods_spec (Pods p) newProxyList) as (Hlook & _).
  assert (Hmirror : IP <$> (rebuildPods (Pods p) newProxyList).1 = newProxyList).
  { apply map_eq. intros i. rewrite lookup_fmap, Hlook.
    destruct (newProxyList !! i) as [ip|]; [|done]. cbn. by rewrite keptOrNew_IP. }
  assert (Hsize : size (rebuildPods (Pods p) newProxyList).1 = size newProxyList).
  { by rewrite <- Hmirror at 2; rewrite map_size_fmap. }
  split; [exact Hmirror|]. split; [exact Hsize|].
  intros version'.
  match goal with |- ?b = false => destruct b eqn:Hagain; [exfalso|done] end.
  apply shouldUpdateProxyList_true in Hagain as [_ [Hne|(i & ip & Hi & Hold)]];
    cbn [Pods] in *; [done|].
  assert (Hip : IP <$> (rebuildPods (Pods p) newProxyList).1 !! i = Some ip).
  { by rewrite <- lookup_fmap, Hmirror. }
  destruct Hold as [Hnone|(pod & Hpod & Hdiff)].
  - by rewrite Hnone in Hip.
  - rewrite Hpod in Hip. cbn in Hip. congruence.
Qed.

(** X7. With an empty table, a response whose version is not greater
    than the stored one teaches the client nothing: the list is not
    applied, there is no pod to update, and the proxy stays as it is, its
    table empty (so after the reset of the selection, which keeps the
    version, only a newer version brings the pods back). *)
Theorem empty_table_ignores_stale_version (p : Proxy) (header : Header)
    (now : Z) (h : ProxyHeaders)
    (Hempty : Pods p = ∅)
    (Hparse : parseProxyHeaders header = inr h)
    (Hstale : version h <= Version p) :
  updateKnownProxies p header now = inr (proxyStatus h, p)
  /\ updateKnownProxies (cleared p) header now = inr (proxyStatus h, cleared p).
Proof.
  assert (Hgen : forall q : Proxy, Pods q = ∅ -> Version q = Version p ->
            updateKnownProxies q header now = inr (proxyStatus h, q)).
  { intros q Hq Hv. unfold updateKnownProxies. rewrite Hparse.
    assert (Hlist : updateProxyList q (newProxyList h) (version h) = q).
    { unfold updateProxyList, shouldUpdateProxyList.
      by rewrite (proj2 (Z.leb_le _ _)) by lia. }
    rewrite Hlist. unfold updateProxyPod. by rewrite Hq, lookup_empty. }
  split; [by apply Hgen|]. by apply Hgen.
Qed.

(** The operations on the table keep its bound and the client's frame. *)
Lemma updateProxyList_bounded (p : Proxy) newProxyList version :
  table_bounded p -> table_bounded (updateProxyList p newProxyList version).
Proof.
  intros Hb. destruct (updateProxyList_cases p newProxyList version)
    as [[_ ->]|[_ ->]]; [done|].
  destruct (rebuildPods_spec (Pods p) newProxyList) as (Hlook & Hnn & Hub & _).
  split; [done|]. cbn. intros i pod Hi. apply Hub.
  rewrite Hlook in Hi. destruct (newProxyList !! i); [by eexists|done].
Qed.

Lemma updateProxyList_sameClient (p : Proxy) newProxyList version :
  sameClient p (updateProxyList p newProxyList version).
Proof.
  destruct (updateProxyList_cases p newProxyList version)
    as [[_ ->]|[Hv ->]]; unfold sameClient; cbn; (split; [done|]);
    (split; [done|lia]).
Qed.

Lemma updateProxyPod_bounded (p : Proxy) i c f now :
  table_bounded p -> table_bounded (updateProxyPod p i c f now).
Proof.
  intros [Hnn Hub]. destruct (updateProxyPod_fields p i c f now) as (_ & _ & Hlast & _).
  split; rewrite Hlast; [done|]. intros j pod Hj. rewrite updateProxyPod_lookup in Hj.
  case_decide; [subst|by eapply Hub].
  destruct (Pods p !! i) eqn:Hi; [by eapply Hub|done].
Qed.

Lemma updateProxyPod_sameClient (p : Proxy) i c f now :
  sameClient p (updateProxyPod p i c f now).
Proof.
  destruct (updateProxyPod_fields p i c f now) as (? & Hv & _ & ?).
  unfold sameClient. rewrite Hv. split; [done|]. split; [done|lia].
Qed.

Lemma sameClient_refl (p : Proxy) : sameClient p p.
Proof. unfold sameClient. split; [done|]. split; [done|lia]. Qed.

Lemma sameClient_trans (p q r : Proxy) :
  sameClient p q -> sameClient q r -> sameClient p r.
Proof.
  unfold sameClient. intros (? & ? & ?) (? & ? & ?).
  split; [congruence|]. split; [congruence|lia].
Qed.

Lemma updateKnownProxies_keeps (p p' : Proxy) header now status :
  updateKnownProxies p header now = inr (status, p') ->
  sameClient p p' /\ (table_bounded p -> table_bounded p').
Proof.
  unfold updateKnownProxies. destruct (parseProxyHeaders header) as [e|h]; [done|].
  intros [= _ <-]. split.
  - eapply sameClient_trans; [apply updateProxyList_sameClient|].
    apply updateProxyPod_sameClient.
  - intros Hb. by apply updateProxyPod_bounded, updateProxyList_bounded.
Qed.

Lemma markProxyPodAsDead_keeps (p : Proxy) i :
  sameClient p (markProxyPodAsDead p i)
  /\ (table_bounded p -> table_bounded (markProxyPodAsDead p i)).
Proof.
  unfold markProxyPodAsDead. destruct (Pods p !! i) as [pod|] eqn:Hi.
  - split; [unfold sameClient; cbn; split; [done|split; [done|lia]]|].
    intros [Hnn Hub]. split; [done|]. cbn.
    intros j pod' Hj. destruct (decide (i = j)) as [->|Hne]; [by eapply Hub|].
    rewrite lookup_insert_ne in Hj by done. by eapply Hub.
  - split; [apply sameClient_refl|done].
Qed.

Lemma determineBestProxy_keeps (p : Proxy) :
  sameClient p (determineBestProxy p).1
  /\ (table_bounded p -> table_bounded (determineBestProxy p).1).
Proof.
  unfold determineBestProxy. destruct (size (Pods p) =? 0)%nat.
  { split; [apply sameClient_refl|done]. }
  destruct (determineBestProxyOrdinal p <? 0).
  { split; [unfold sameClient; cbn; split; [done|split; [done|lia]]|].
    intros _. split; [done|]. cbn.
    intros i pod Hi. by rewrite lookup_empty in Hi. }
  destruct (url_Parse _); (split; [apply sameClient_refl|done]).
Qed.

End ListMore.

(** ** More on the router *)

Section RouterMore.
Context `{Network}.

Lemma predicted_keeps (p : Proxy) i :
  sameClient p (predicted p i)
  /\ (table_bounded p -> table_bounded (predicted p i)).
Proof.
  unfold predicted. destruct (0 <=? i); [|split; [apply sameClient_refl|done]].
  split; [unfold sameClient; cbn; split; [done|split; [done|lia]]|].
  intros [Hnn Hub]. split; [done|]. cbn. intros j pod Hj.
  destruct (decide (i = j)) as [->|Hne].
  - rewrite lookup_alter_eq in Hj. destruct (Pods p !! j) eqn:E; [by eapply Hub|done].
  - rewrite lookup_alter_ne in Hj by done. by eapply Hub.
Qed.

(** One pass of the loop: what it does to the proxy and to the list of
    requests sent. *)
Lemma Do_attempt_keeps attempt client (s : DoState) :
  let s' := step_state (Do_attempt attempt client s) in
  sameClient (st_proxy s) (st_proxy s')
  /\ (table_bounded (st_proxy s) -> table_bounded (st_proxy s'))
  /\ (st_sent s' = st_sent s \/ exists req, st_sent s' = (st_sent s ++ [req])%list).
Proof.
  cbn zeta.
  destruct (determineBestProxy (st_proxy s)) as [p1 [e|[ordinal u]]] eqn:Hsel.
  { unfold Do_attempt. rewrite Hsel. cbn.
    pose proof (determineBestProxy_keeps (st_proxy s)) as [Hs Hb].
    rewrite Hsel in Hs, Hb. by auto. }
  rewrite (Do_attempt_selected _ _ _ _ _ _ Hsel). cbn zeta.
  pose proof (determineBestProxy_keeps (st_proxy s)) as [Hs1 Hb1].
  rewrite Hsel in Hs1, Hb1. cbn in Hs1, Hb1.
  pose proof (predicted_keeps p1 ordinal) as [Hs2 Hb2].
  pose proof (markProxyPodAsDead_keeps (predicted p1 ordinal) ordinal) as [Hs3 Hb3].
  assert (Hs12 := sameClient_trans _ _ _ Hs1 Hs2).
  assert (Hs123 := sameClient_trans _ _ _ Hs12 Hs3).
  destruct (client_Do _ _) as [[err|resp] w].
  - destruct (0 <=? ordinal); [destruct (_ && _)|]; cbn;
      (split; [done|]); (split; [by auto|]); right; by eexists.
  - destruct (updateKnownProxies _ _ _) as [e|[status p3]] eqn:Hupd; cbn.
    + split; [done|]. split; [by auto|]. right. by eexists.
    + apply updateKnownProxies_keeps in Hupd as [Hs4 Hb4].
      split; [exact (sameClient_trans _ _ _ Hs12 Hs4)|]. split; [by auto|].
      right. by eexists.
Qed.

Lemma Do_loop_keeps client (fuel : nat) :
  forall attempt (s s' : DoState) r,
    Do_loop fuel attempt client s = Some (r, s') ->
    sameClient (st_proxy s) (st_proxy s')
    /\ (table_bounded (st_proxy s) -> table_bounded (st_proxy s')).
Proof.
  induction fuel as [|fuel IH]; intros attempt s s' r; cbn [Do_loop];
    pose proof (Do_attempt_keeps attempt client s) as (Hs & Hb & _); cbn zeta in *;
    destruct (Do_attempt attempt client s) as [r1 s1|s1]; cbn in Hs, Hb.
  - intros [= <- <-]. by auto.
  - done.
  - intros [= <- <-]. by auto.
  - intros Hloop. apply IH in Hloop as [Hs' Hb'].
    split; [exact (sameClient_trans _ _ _ Hs Hs')|by auto].
Qed.

(** X8. Whatever [Do] returns, the proxy keeps its service URL and its
    configuration, its version is not older than before, and no ordinal
    of its table is above [LastPodOrdinal] if none was before. *)
Theorem Do_keeps_client_and_table_bound (p : Proxy) client (req : Request)
    (w : World) result (s' : DoState)
    (Hreturns : Do p client req w = Some (result, s')) :
  Service (st_proxy s') = Service p
  /\ ProxyConfig (st_proxy s') = ProxyConfig p
  /\ Version p <= Version (st_proxy s')
  /\ (table_bounded p -> table_bounded (st_proxy s')).
Proof.
  unfold Do in Hreturns. apply Do_loop_keeps in Hreturns as [(? & ? & ?) Hb].
  by auto.
Qed.

Lemma Do_loop_sent_bound client (fuel : nat) :
  forall attempt (s s' : DoState) r,
    0 <= attempt ->
    Attempts (ProxyConfig (st_proxy s)) <= MaxUint64 ->
    Do_loop fuel attempt client s = Some (r, s') ->
    (length (st_sent s')
     <= length (st_sent s)
        + Z.to_nat (Z.max 1 (Attempts (ProxyConfig (st_proxy s)) - attempt + 1)))%nat.
Proof.
  induction fuel as [|fuel IH]; intros attempt s s' r Hnn Hmax; cbn [Do_loop];
    pose proof (Do_attempt_keeps attempt client s) as (_ & _ & Hsent); cbn zeta in *;
    destruct (Do_attempt attempt client s) as [r1 s1|s1] eqn:Hstep; cbn in Hsent.
  - intros [= <- <-]. destruct Hsent as [->|[q ->]]; rewrite ?length_app; cbn; lia.
  - done.
  - intros [= <- <-]. destruct Hsent as [->|[q ->]]; rewrite ?length_app; cbn; lia.
  - intros Hloop. apply Do_attempt_Continue in Hstep as [Hlt Hcfg].
    assert (Hsucc : uint_succ attempt = attempt + 1).
    { unfold uint_succ. apply Z.mod_small. unfold MaxUint64 in Hmax. lia. }
    rewrite Hsucc in Hloop. apply IH in Hloop; [|lia|by rewrite Hcfg].
    rewrite Hcfg in Hloop.
    destruct Hsent as [Hsame|[q Hq]].
    + rewrite Hsame in Hloop. lia.
    + rewrite Hq, length_app in Hloop. cbn in Hloop. lia.
Qed.

(** X9. [Do] returns, and by then it has called the client at most
    [Attempts] times (once when [Attempts] is 0). *)
Theorem Do_calls_client_at_most_Attempts_times (p : Proxy) client
    (req : Request) (w : World)
    (Hrange : uint_range (Attempts (ProxyConfig p))) :
  exists result s',
    Do p client req w = Some (result, s')
    /\ (length (st_sent s') <= Z.to_nat (Z.max 1 (Attempts (ProxyConfig p))))%nat.
Proof.
  destruct (Do_total p client req w Hrange) as [[result s'] Hdo].
  exists result, s'. split; [exact Hdo|].
  unfold Do in Hdo. destruct Hrange as [_ Hmax].
  apply Do_loop_sent_bound in Hdo; cbn in *; [|lia|done].
  replace (Attempts (ProxyConfig p) - 1 + 1) with (Attempts (ProxyConfig p)) in Hdo by lia.
  exact Hdo.
Qed.

Lemma markProxyPodAsDead_not_eligible (p : Proxy) i pod :
  ~ eligible (Pods (markProxyPodAsDead p i)) i pod.
Proof.
  intros [Hpod Halive]. unfold markProxyPodAsDead in Hpod.
  destruct (Pods p !! i) as [pod0|] eqn:Hold; [|congruence].
  cbn in Hpod. rewrite lookup_insert_eq in Hpod. injection Hpod as <-.
  cbn in Halive. lia.
Qed.

(** X10. When the address of the selected pod does not make a URL, [Do]
    returns the error of the parse at once: no request is sent, the free
    count of the pod is not decremented, no pod is marked, and the
    caller's request is untouched. *)
Theorem Do_returns_selection_error_untouched fuel attempt client (s : DoState)
    (p1 : Proxy) (err : error)
    (Hsel : determineBestProxy (st_proxy s) = (p1, inl err)) :
  Do_loop fuel attempt client s = Some (inl err, s)
  /\ exists text, err = URLError text.
Proof.
  assert (Hp1 : p1 = st_proxy s /\ exists text, err = URLError text).
  { unfold determineBestProxy in Hsel.
    destruct (size (Pods (st_proxy s)) =? 0)%nat; [done|].
    destruct (determineBestProxyOrdinal (st_proxy s) <? 0); [done|].
    destruct (url_Parse _) as [e|u]; [|done].
    injection Hsel as <- <-. by eauto. }
  destruct Hp1 as [-> Htext]. split; [|exact Htext].
  assert (Hstep : Do_attempt attempt client s = Return (inl err) s).
  { unfold Do_attempt. rewrite Hsel. by destruct s. }
  destruct fuel; cbn [Do_loop]; by rewrite Hstep.
Qed.

(** X11. The request that an attempt hands to the client is the caller's
    request with its URL replaced by the URL selected and three headers
    set: Proxy-Forward-To to the URL the request had when the attempt
    started, Proxy-Webhook-Callback to the configured callback, and
    Proxy-Insecure-Skip-Verify to true when the client skips
    verification.  The method and every other header are the caller's. *)
Theorem Do_attempt_sends_callers_request attempt client (s : DoState)
    (p1 : Proxy) (ordinal : Z) (u : URL)
    (Hsel : determineBestProxy (st_proxy s) = (p1, inr (ordinal, u))) :
  exists req,
    st_sent (step_state (Do_attempt attempt client s)) = (st_sent s ++ [req])%list
    /\ st_req (step_state (Do_attempt attempt client s)) = req
    /\ Method req = Method (st_req s)
    /\ req_URL req = u
    /\ Header_Get (req_Header req) "Proxy-Forward-To" = URL_String (req_URL (st_req s))
    /\ Header_Get (req_Header req) "Proxy-Webhook-Callback"
       = WebhookCallbackURL (ProxyConfig (st_proxy s))
    /\ (if InsecureSkipVerify client
        then Header_Get (req_Header req) "Proxy-Insecure-Skip-Verify" = "true"
        else req_Header req !! "Proxy-Insecure-Skip-Verify"
             = req_Header (st_req s) !! "Proxy-Insecure-Skip-Verify")
    /\ forall name,
         name <> "Proxy-Forward-To" -> name <> "Proxy-Webhook-Callback" ->
         name <> "Proxy-Insecure-Skip-Verify" ->
         req_Header req !! name = req_Header (st_req s) !! name.
Proof.
  exists (outbound (predicted p1 ordinal) client (st_req s) u).
  pose proof (determineBestProxy_config (st_proxy s)) as Hcfg.
  rewrite Hsel in Hcfg. cbn in Hcfg.
  split; [|split].
  - rewrite (Do_attempt_selected _ _ _ _ _ _ Hsel). cbn zeta.
    destruct (client_Do _ _) as [[err|resp] w].
    + by destruct (0 <=? ordinal); [destruct (_ && _)|].
    + by destruct (updateKnownProxies _ _ _) as [?|[? ?]].
  - rewrite (Do_attempt_selected _ _ _ _ _ _ Hsel). cbn zeta.
    destruct (client_Do _ _) as [[err|resp] w].
    + by destruct (0 <=? ordinal); [destruct (_ && _)|].
    + by destruct (updateKnownProxies _ _ _) as [?|[? ?]].
  - split; [done|]. split; [done|]. split; [apply outbound_Forward_To|].
    unfold outbound, setProxyHeaders, Header_Get, Header_Set. cbn.
    rewrite predicted_config, Hcfg.
    destruct (InsecureSkipVerify client).
    + split; [by rewrite lookup_insert_ne, lookup_insert_eq|].
      split; [by rewrite lookup_insert_eq|].
      intros name H1 H2 H3. by rewrite !lookup_insert_ne.
    + split; [by rewrite lookup_insert_eq|].
      split; [by rewrite !lookup_insert_ne|].
      intros name H1 H2 H3. by rewrite !lookup_insert_ne.
Qed.

(** X12. A response that [Do] returns is the response that the client
    got for the request of this attempt, with its status code and all its
    headers but Proxy-Free, Proxy-Ordinal, Proxy-Version and Proxy-List;
    and the proxy has taken in the headers of this response. *)
Theorem Do_attempt_returns_the_transport_response attempt client
    (s s' : DoState) (resp' : Response)
    (Hreturn : Do_attempt attempt client s = Return (inr resp') s') :
  exists (p1 : Proxy) ordinal (u : URL) (resp : Response) status,
    determineBestProxy (st_proxy s) = (p1, inr (ordinal, u))
    /\ client_Do (st_world s) (outbound (predicted p1 ordinal) client (st_req s) u)
       = (inr resp, st_world s')
    /\ updateKnownProxies (predicted p1 ordinal) (resp_Header resp)
         (time_Now (st_world s')) = inr (status, st_proxy s')
    /\ StatusCode resp' = StatusCode resp
    /\ forall name,
         name ∉ ["Proxy-Free"; "Proxy-Ordinal"; "Proxy-Version"; "Proxy-List"] ->
         resp_Header resp' !! name = resp_Header resp !! name.
Proof.
  destruct (determineBestProxy (st_proxy s)) as [p1 [e|[ordinal u]]] eqn:Hsel.
  { unfold Do_attempt in Hreturn. by rewrite Hsel in Hreturn. }
  rewrite (Do_attempt_selected _ _ _ _ _ _ Hsel) in Hreturn. cbn zeta in Hreturn.
  destruct (client_Do _ _) as [[err|resp] w] eqn:Hdo.
  { by destruct (0 <=? ordinal); [destruct (_ && _)|]. }
  destruct (updateKnownProxies _ _ _) as [e|[status p3]] eqn:Hupd; [done|].
  injection Hreturn as <- <-. exists p1, ordinal, u, resp, status.
  cbn [st_world st_proxy].
  split; [done|]. split; [done|]. split; [done|]. split; [done|].
  intros name Hname. rewrite stripProxyHeaders_lookup.
  by rewrite bool_decide_eq_false_2.
Qed.

(** X13. A retry does not go to the pod that has just failed: when an
    attempt ends in a retry, the pod it was sent to has an ordinal that is
    not negative, and the selection of the next attempt returns another
    ordinal (or -1, the service URL). *)
Theorem Do_retry_selects_another_pod attempt client (s s' : DoState)
    (p1 : Proxy) (ordinal : Z) (u : URL)
    (Hsel : determineBestProxy (st_proxy s) = (p1, inr (ordinal, u)))
    (Hretry : Do_attempt attempt client s = Continue s') :
  0 <= ordinal
  /\ forall (p2 : Proxy) ordinal' (u' : URL),
       determineBestProxy (st_proxy s') = (p2, inr (ordinal', u')) ->
       ordinal' <> ordinal.
Proof.
  rewrite (Do_attempt_selected _ _ _ _ _ _ Hsel) in Hretry. cbn zeta in Hretry.
  destruct (client_Do _ _) as [[err|resp] w].
  2:{ by destruct (updateKnownProxies _ _ _) as [?|[? ?]]. }
  destruct (0 <=? ordinal) eqn:Hord; [|done]. apply Z.leb_le in Hord.
  destruct (_ && _); [|done]. injection Hretry as <-.
  split; [exact Hord|]. intros p2 ordinal' u' Hsel' ->.
  apply determineBestProxy_cases in Hsel' as [(? & _)|(_ & _ & pod & Hel)]; [lia|].
  cbn in Hel. by apply markProxyPodAsDead_not_eligible in Hel.
Qed.

End RouterMore.

(** ** More on the headers, [Ensure], the pings and the construction *)

Section ClientMore.
Context `{Network}.

Lemma parseIntHeader_readable (h : Header) (name : string) :
  String.eqb name "Proxy-List" = false ->
  unreadable h name = false ->
  exists v, parseIntHeader h name = inr v
            /\ strconv_ParseInt (Header_Get h name) = inr v.
Proof.
  unfold parseIntHeader, unreadable. intros ->.
  destruct (strconv_ParseInt _) as [e|v]; [done|]. by exists v.
Qed.

(** X14. [updateKnownProxies] succeeds exactly when each of the six
    required headers is readable; the status it returns is the integer of
    the Proxy-Status header, and the proxy it leaves is the list update
    followed by the stat update, both with the values of the headers. *)
Theorem updateKnownProxies_succeeds_iff_headers_readable
    (p : Proxy) (header : Header) (now : Z) :
  ((forall name, name ∈ requiredHeaders -> unreadable header name = false)
   <-> exists status p', updateKnownProxies p header now = inr (status, p'))
  /\ forall status p',
       updateKnownProxies p header now = inr (status, p') ->
       exists h,
         parseProxyHeaders header = inr h
         /\ strconv_ParseInt (Header_Get header "Proxy-Status") = inr status
         /\ strconv_ParseInt (Header_Get header "Proxy-Free") = inr (newProxyFree h)
         /\ strconv_ParseInt (Header_Get header "Proxy-Ordinal") = inr (proxyOrdinal h)
         /\ strconv_ParseInt (Header_Get header "Proxy-Version") = inr (version h)
         /\ strconv_ParseInt (Header_Get header "Proxy-Counter") = inr (proxyCounter h)
         /\ parseProxyList (Header_Get header "Proxy-List") = inr (newProxyList h)
         /\ p' = updateProxyPod (updateProxyList p (newProxyList h) (version h))
                   (proxyOrdinal h) (proxyCounter h) (newProxyFree h) now.
Proof.
  split; [split|].
  - intros Hall. unfold updateKnownProxies, parseProxyHeaders.
    assert (Hin : forall name, In name requiredHeaders -> unreadable header name = false).
    { intros name Hname. apply Hall. by apply list_elem_of_In. }
    destruct (parseIntHeader_readable header "Proxy-Free") as (? & -> & _);
      [done|apply Hin; cbn; tauto|].
    destruct (parseIntHeader_readable header "Proxy-Ordinal") as (? & -> & _);
      [done|apply Hin; cbn; tauto|].
    destruct (parseIntHeader_readable header "Proxy-Version") as (? & -> & _);
      [done|apply Hin; cbn; tauto|].
    destruct (parseIntHeader_readable header "Proxy-Counter") as (? & -> & _);
      [done|apply Hin; cbn; tauto|].
    destruct (parseIntHeader_readable header "Proxy-Status") as (? & -> & _);
      [done|apply Hin; cbn; tauto|].
    assert (Hlist : unreadable header "Proxy-List" = false) by (apply Hin; cbn; tauto).
    unfold unreadable in Hlist. cbn [String.eqb Ascii.eqb] in Hlist. cbn in Hlist.
    destruct (parseProxyList (Header_Get header "Proxy-List")); [done|].
    by eexists _, _.
  - intros (status & p' & Hok) name Hname.
    destruct (unreadable header name) eqn:Hbad; [exfalso|done].
    destruct (updateKnownProxies_unreadable p header now) as (? & ? & _ & _ & Hfail);
      [by exists name|congruence].
  - intros status p'. unfold updateKnownProxies, parseProxyHeaders, parseIntHeader.
    destruct (strconv_ParseInt (Header_Get header "Proxy-Free")); [done|].
    destruct (strconv_ParseInt (Header_Get header "Proxy-Ordinal")); [done|].
    destruct (strconv_ParseInt (Header_Get header "Proxy-Version")); [done|].
    destruct (strconv_ParseInt (Header_Get header "Proxy-Counter")); [done|].
    destruct (strconv_ParseInt (Header_Get header "Proxy-Status")); [done|].
    destruct (parseProxyList (Header_Get header "Proxy-List")); [done|].
    intros [= <- <-]. eexists. by repeat split.
Qed.

Lemma updateKnownProxies_status (p p' : Proxy) (header : Header) now status :
  updateKnownProxies p header now = inr (status, p') ->
  strconv_ParseInt (Header_Get header "Proxy-Status") = inr status.
Proof.
  unfold updateKnownProxies, parseProxyHeaders, parseIntHeader.
  destruct (strconv_ParseInt (Header_Get header "Proxy-Free")); [done|].
  destruct (strconv_ParseInt (Header_Get header "Proxy-Ordinal")); [done|].
  destruct (strconv_ParseInt (Header_Get header "Proxy-Version")); [done|].
  destruct (strconv_ParseInt (Header_Get header "Proxy-Counter")); [done|].
  destruct (strconv_ParseInt (Header_Get header "Proxy-Status")); [done|].
  destruct (parseProxyList (Header_Get header "Proxy-List")); [done|].
  by intros [= <- _].
Qed.

Lemma updateKnownProxies_error_is_parsing (p : Proxy) (header : Header) now e :
  updateKnownProxies p header now = inl e ->
  exists name cause, e = ParsingError name cause.
Proof.
  unfold updateKnownProxies, parseProxyHeaders, parseIntHeader.
  destruct (strconv_ParseInt (Header_Get header "Proxy-Free"));
    [intros [= <-]; by eauto|].
  destruct (strconv_ParseInt (Header_Get header "Proxy-Ordinal"));
    [intros [= <-]; by eauto|].
  destruct (strconv_ParseInt (Header_Get header "Proxy-Version"));
    [intros [= <-]; by eauto|].
  destruct (strconv_ParseInt (Header_Get header "Proxy-Counter"));
    [intros [= <-]; by eauto|].
  destruct (strconv_ParseInt (Header_Get header "Proxy-Status"));
    [intros [= <-]; by eauto|].
  destruct (parseProxyList (Header_Get header "Proxy-List"));
    [intros [= <-]; by eauto|done].
Qed.

(** X15. [Ensure] returns nil only when the client got a response to its
    one request, a POST to the service URL with the header
    Proxy-Ensure-Requests, all the required headers of the response were
    readable and its Proxy-Status header is 200; the proxy has taken in
    the headers of this response. *)
Theorem Ensure_succeeds_only_on_Proxy_Status_200 (p : Proxy) client
    (ensureRequests : Z) (w : World) (p' : Proxy) (w' : World)
    (sent : list Request)
    (Hnil : Ensure p client ensureRequests w = (None, p', w', sent)) :
  exists (req : Request) (resp : Response),
    sent = [req]
    /\ Method req = "POST"
    /\ url_Parse (URL_String (Service p)) = inr (req_URL req)
    /\ req_Header req = {["Proxy-Ensure-Requests" := [strconv_Itoa ensureRequests]]}
    /\ client_Do w req = (inr resp, w')
    /\ updateKnownProxies p (resp_Header resp) (time_Now w') = inr (200, p')
    /\ strconv_ParseInt (Header_Get (resp_Header resp) "Proxy-Status") = inr 200.
Proof.
  unfold Ensure, http_NewRequest in Hnil.
  destruct (url_Parse (URL_String (Service p))) as [e|u] eqn:Hurl; [done|].
  cbn in Hnil. destruct (client_Do _ _) as [[err|resp] w1] eqn:Hdo; [done|].
  destruct (updateKnownProxies _ _ _) as [e|[status p1]] eqn:Hupd; [done|].
  destruct (status =? 200) eqn:Hstatus; [|done]. apply Z.eqb_eq in Hstatus. subst.
  injection Hnil as <- <- <-. eexists _, resp.
  split; [done|]. cbn. split; [done|]. split; [done|].
  split; [by unfold Header_Set; rewrite insert_empty|].
  split; [done|]. split; [done|]. by eapply updateKnownProxies_status.
Qed.

(** X16. [Ensure] calls the client at most once.  When it fails with
    anything but the error of an unexpected status, the proxy is as it was
    before: a transport failure marks no pod dead.  The error of an
    unexpected status names the Proxy-Status of a response whose headers
    the proxy has taken in. *)
Theorem Ensure_failure_marks_no_pod (p : Proxy) client (ensureRequests : Z)
    (w : World) (err : error) (p' : Proxy) (w' : World) (sent : list Request)
    (Hfail : Ensure p client ensureRequests w = (Some err, p', w', sent)) :
  (length sent <= 1)%nat
  /\ ((forall text, err <> ErrorString text) -> p' = p)
  /\ (forall text, err = ErrorString text ->
        exists (req : Request) (resp : Response) status,
          sent = [req] /\ client_Do w req = (inr resp, w')
          /\ updateKnownProxies p (resp_Header resp) (time_Now w') = inr (status, p')
          /\ status <> 200
          /\ text = "Unexpected proxy status code " +:+ strconv_Itoa status).
Proof.
  unfold Ensure, http_NewRequest in Hfail.
  destruct (url_Parse (URL_String (Service p))) as [e|u] eqn:Hurl.
  { injection Hfail as <- <- <- <-. cbn. split; [lia|]. split; [done|]. done. }
  cbn in Hfail. destruct (client_Do _ _) as [[e|resp] w1] eqn:Hdo.
  { injection Hfail as <- <- <- <-. cbn. split; [lia|]. split; [done|]. done. }
  destruct (updateKnownProxies _ _ _) as [e|[status p1]] eqn:Hupd.
  { injection Hfail as <- <- <- <-. cbn. split; [lia|]. split; [done|].
    intros text ->.
    by apply updateKnownProxies_error_is_parsing in Hupd as (? & ? & ?). }
  destruct (status =? 200) eqn:Hstatus; [done|]. apply Z.eqb_neq in Hstatus.
  injection Hfail as <- <- <- <-. cbn. split; [lia|].
  split; [intros Hno; by destruct (Hno _ eq_refl)|].
  intros text [= <-]. by eexists _, resp, status.
Qed.

(** X17. A ping that fails, in the making of its request or in the
    transport, returns the error and marks the pod pinged dead, which
    changes nothing when the ordinal has no pod (as -1, the service URL).
    A ping that gets a response returns nil whatever the headers are: with
    an unreadable required header the proxy is left as it was. *)
Theorem pingProxy_marks_dead_or_updates (p : Proxy) (proxyOrdinal : Z)
    (proxyURL : string) (w : World) :
  (forall e, http_NewRequest "GET" proxyURL = inl e ->
     pingProxy p proxyOrdinal proxyURL w
     = (Some e, markProxyPodAsDead p proxyOrdinal, w))
  /\ (forall (req : Request) err w',
        http_NewRequest "GET" proxyURL = inr req ->
        client_Do w req = (inl err, w') ->
        pingProxy p proxyOrdinal proxyURL w
        = (Some (TransportError err), markProxyPodAsDead p proxyOrdinal, w'))
  /\ (Pods p !! proxyOrdinal = None -> markProxyPodAsDead p proxyOrdinal = p)
  /\ (forall pod, Pods p !! proxyOrdinal = Some pod ->
        Pods (markProxyPodAsDead p proxyOrdinal) !! proxyOrdinal
        = Some {| IP := IP pod; Timestamp := Timestamp pod; Counter := -1;
                  Free := Free pod |})
  /\ (forall (req : Request) (resp : Response) w',
        http_NewRequest "GET" proxyURL = inr req ->
        client_Do w req = (inr resp, w') ->
        (pingProxy p proxyOrdinal proxyURL w).1.1 = None
        /\ ((exists name, name ∈ requiredHeaders
                          /\ unreadable (resp_Header resp) name = true) ->
            pingProxy p proxyOrdinal proxyURL w = (None, p, w'))
        /\ (forall status p',
              updateKnownProxies p (resp_Header resp) (time_Now w') = inr (status, p') ->
              pingProxy p proxyOrdinal proxyURL w = (None, p', w'))).
Proof.
  split; [|split; [|split; [|split]]].
  - intros e Hreq. unfold pingProxy. by rewrite Hreq.
  - intros req err w' Hreq Hdo. unfold pingProxy. by rewrite Hreq, Hdo.
  - intros Hnone. unfold markProxyPodAsDead. by rewrite Hnone.
  - intros pod Hpod. by apply markProxyPodAsDead_lookup.
  - intros req resp w' Hreq Hdo. unfold pingProxy. rewrite Hreq, Hdo.
    split; [|split].
    + by destruct (updateKnownProxies _ _ _) as [?|[? ?]].
    + intros Hbad.
      destruct (updateKnownProxies_unreadable p (resp_Header resp) (time_Now w') Hbad)
        as (? & ? & _ & _ & ->). done.
    + by intros status p' ->.
Qed.

(** X18. A proxy made by [NewWithConfig] has the parsed service URL, an
    empty table at version 0, and the configuration given with the
    defaults in place of the zero values: one sender, [MaxUint32]
    attempts.  So neither is ever zero, and the first selection goes to
    the service URL. *)
Theorem NewWithConfig_fills_defaults (proxyServiceURL : string)
    (config : Config) (p : Proxy)
    (Hnew : NewWithConfig proxyServiceURL config = inr p) :
  url_Parse proxyServiceURL = inr (Service p)
  /\ Pods p = ∅ /\ Version p = 0 /\ LastPodOrdinal p = 0
  /\ NumberOfSenders (ProxyConfig p)
     = (if NumberOfSenders config =? 0 then 1 else NumberOfSenders config)
  /\ Attempts (ProxyConfig p)
     = (if Attempts config =? 0 then MaxUint32 else Attempts config)
  /\ WebhookCallbackURL (ProxyConfig p) = WebhookCallbackURL config
  /\ NumberOfSenders (ProxyConfig p) <> 0
  /\ Attempts (ProxyConfig p) <> 0
  /\ determineBestProxy p = (p, inr (-1, Service p)).
Proof.
  unfold NewWithConfig, New in Hnew.
  destruct (url_Parse proxyServiceURL) as [e|u]; [done|].
  injection Hnew as <-. cbn [Service Pods Version LastPodOrdinal ProxyConfig].
  split; [done|]. split; [done|]. split; [done|]. split; [done|].
  destruct (NumberOfSenders config =? 0) eqn:Hs, (Attempts config =? 0) eqn:Ha;
    cbn [NumberOfSenders Attempts WebhookCallbackURL]; rewrite ?Hs, ?Ha;
    cbn [NumberOfSenders Attempts WebhookCallbackURL];
    try apply Z.eqb_neq in Hs; try apply Z.eqb_neq in Ha;
    repeat split; try done.
Qed.

(** [NewWithConfig] fails exactly when the service URL does not parse. *)
Lemma NewWithConfig_error (proxyServiceURL : string) (config : Config) e :
  NewWithConfig proxyServiceURL config = inl e
  <-> exists text, url_Parse proxyServiceURL = inl text /\ e = URLError text.
Proof.
  unfold NewWithConfig, New. destruct (url_Parse proxyServiceURL) as [text|u].
  - split; [intros [= <-]; by eauto|]. by intros (? & [= <-] & ->).
  - split; [done|]. by intros (? & ? & _).
Qed.

Lemma wrap64_small (z : Z) : - 2 ^ 63 <= z < 2 ^ 63 -> wrap64 z = z.
Proof. intros Hz. unfold wrap64. rewrite Z.mod_small; lia. Qed.

(** X19. The prediction: for a pod selected, with a number of senders and
    a free count in the [int64] range and no overflow, the free count of
    the pod goes down by the number of senders (it may go below zero);
    its other fields and the other pods are untouched.  For the service
    URL (a negative ordinal) nothing changes. *)
Theorem predicted_decrements_free_by_senders (p : Proxy) (ordinal : Z) (pod : Pod)
    (Hordinal : 0 <= ordinal)
    (Hpod : Pods p !! ordinal = Some pod)
    (Hsenders : 0 <= NumberOfSenders (ProxyConfig p) <= MaxInt64)
    (Hfree : - 2 ^ 63 <= Free pod - NumberOfSenders (ProxyConfig p)
             /\ Free pod <= MaxInt64) :
  Pods (predicted p ordinal) !! ordinal
  = Some {| IP := IP pod; Timestamp := Timestamp pod; Counter := Counter pod;
            Free := Free pod - NumberOfSenders (ProxyConfig p) |}
  /\ (forall j, j <> ordinal -> Pods (predicted p ordinal) !! j = Pods p !! j)
  /\ (forall negative, negative < 0 -> predicted p negative = p).
Proof.
  unfold MaxInt64 in *. split; [|split].
  - unfold predicted. rewrite (proj2 (Z.leb_le _ _) Hordinal). cbn.
    rewrite lookup_alter_eq, Hpod. cbn. do 2 f_equal.
    rewrite (wrap64_small (NumberOfSenders _)) by lia.
    rewrite (wrap64_small (-1 * _)) by lia.
    rewrite wrap64_small by lia. lia.
  - intros j Hj. by apply predicted_lookup_ne.
  - intros negative Hneg. unfold predicted.
    by rewrite (proj2 (Z.leb_gt _ _) Hneg).
Qed.

End ClientMore.

(** ** The client on the sample network *)

Module OnSample.
Import Sample Data.

(** C4, on the code.  [Do] on the three pods, with a network that answers
    the first call with a well-formed response of pod 1: the response
    returned has lost Proxy-Free, Proxy-Ordinal, Proxy-Version and
    Proxy-List and has kept Proxy-Status, but Proxy-Counter is still in
    it, with the value the proxy sent. *)
Theorem Do_returns_response_with_Proxy_Counter :
  exists resp s',
    Do proxy3 plain_client request world_ok = Some (inr resp, s')
    /\ resp_Header resp !! "Proxy-Counter" = Some ["7"]
    /\ resp_Header resp !! "Proxy-Status" = Some ["200"]
    /\ resp_Header resp !! "Proxy-Free" = None
    /\ resp_Header resp !! "Proxy-Ordinal" = None
    /\ resp_Header resp !! "Proxy-Version" = None
    /\ resp_Header resp !! "Proxy-List" = None.
Proof.
  eexists _, _. split; [reflexivity|]. repeat split.
Qed.

(** C5, on the code.  [Do] for a request to http://recipient on the three
    pods, with a network that refuses the first connection: the first
    request goes to pod 1 with Proxy-Forward-To http://recipient; the
    retry goes to pod 0 with Proxy-Forward-To http://10.0.0.2:80, the
    address of pod 1, and not the URL the caller asked for. *)
Theorem Do_retry_forwards_to_the_previous_proxy :
  exists result s',
    Do proxy3 plain_client request world_refused_once
    = Some (result, s')
    /\ URL_String (req_URL request) = "http://recipient"
    /\ map (fun q => (URL_String (req_URL q),
                      Header_Get (req_Header q) "Proxy-Forward-To")) (st_sent s')
       = [("http://10.0.0.2:80", "http://recipient");
          ("http://10.0.0.1:80", "http://10.0.0.2:80")]
    /\ (forall q, (st_sent s') !! 1%nat = Some q ->
          Header_Get (req_Header q) "Proxy-Forward-To"
          <> URL_String (req_URL request)).
Proof.
  eexists _, _. split; [reflexivity|].
  split; [reflexivity|]. split; [reflexivity|].
  intros q [= <-]. discriminate.
Qed.

(** A response without Proxy-Counter: [Do] returns the parse error of this
    header after one call, with two attempts still allowed. *)
Example Do_returns_parse_error_of_missing_header :
  exists s',
    Do proxy3 plain_client request world_no_counter
    = Some (inl (ParsingError "Proxy-Counter" (NumError EmptyString ErrSyntax)), s')
    /\ length (st_sent s') = 1%nat
    /\ length (outcomes (st_world s')) = 1%nat.
Proof. eexists. split; [reflexivity|]. split; reflexivity. Qed.

(** The same list at the same version changes nothing, and a dead pod is
    revived by a later counter. *)
Example same_version_list_and_revival :
  updateProxyList proxy3 addresses3' 3 = proxy3
  /\ Counter <$> Pods (markProxyPodAsDead proxy3 1) !! 1 = Some (-1)
  /\ Pods (updateProxyPod (markProxyPodAsDead proxy3 1) 1 0 8 50) !! 1
     = Some {| IP := "10.0.0.2"; Timestamp := 50; Counter := 0; Free := 8 |}.
Proof. split; [reflexivity|]. split; reflexivity. Qed.

(** C3, as stated, fails: a list update with the newer version 4 and the
    list that the table already has leaves the proxy as it is, so
    [Version] stays 3 and does not become 4; the same through
    [updateKnownProxies] on the headers of such a response. *)
Lemma same_list_at_newer_version_keeps_Version :
  Version proxy3 < 4
  /\ updateProxyList proxy3 addresses3 4 = proxy3
  /\ Version (updateProxyList proxy3 addresses3 4) = 3
  /\ Version (updateProxyList proxy3 addresses3 4) <> 4
  /\ (exists p',
        updateKnownProxies proxy3 (proxy_headers "4" "1" "4" "1" "200" list3) 100
        = inr (200, p')
        /\ Version p' = 3).
Proof.
  split; [reflexivity|]. split; [reflexivity|]. split; [reflexivity|].
  split; [discriminate|]. eexists. split; reflexivity.
Qed.

(** The amended C3 at work: version 4 gives pod 1 a new address; pod 0
    keeps its counter and free count, pod 1 is reset to zero. *)
Lemma newer_list_replaces_table_witness :
  Version proxy3 < 4
  /\ Pods (updateProxyList proxy3 addresses3' 4) !! 0 = Some (alive "10.0.0.1" 1 5)
  /\ Pods (updateProxyList proxy3 addresses3' 4) !! 1 = Some (newPod "10.0.0.9")
  /\ Version (updateProxyList proxy3 addresses3' 4) = 4.
Proof.
  assert (Hnewer : Version proxy3 < 4) by reflexivity.
  assert (Hdiff : listDiffers (Pods proxy3) addresses3').
  { right. exists 1, "10.0.0.9". split; [reflexivity|]. right.
    exists (alive "10.0.0.2" 1 10). split; [reflexivity|discriminate]. }
  destruct (newer_list_replaces_table_when_it_differs proxy3 addresses3' 4 Hnewer)
    as [Hreplace _].
  destruct (Hreplace Hdiff) as (Hkeep & Hnew & _ & Hversion & _).
  split; [exact Hnewer|]. split; [|split; [|exact Hversion]].
  - apply (Hkeep 0 "10.0.0.1"); reflexivity.
  - apply (Hnew 1 "10.0.0.9"); [reflexivity|]. right.
    exists (alive "10.0.0.2" 1 10). split; [reflexivity|discriminate].
Defined.

(** C6 at work: the first connection to pod 1 is refused at attempt 1 of
    3; pod 1 is marked dead and the loop goes on. *)
Lemma Do_retries_connection_errors_witness :
  exists marked,
    Do_attempt 1 plain_client (start world_refused_once) = Continue marked
    /\ (exists pod, Pods (st_proxy marked) !! 1 = Some pod /\ Counter pod = -1).
Proof.
  destruct (Do_retries_connection_errors_against_pods 1 plain_client
              (start world_refused_once) proxy3 1 (pod_url "10.0.0.2") refused
              (mkScript [inr (ok_response "0")] 101) eq_refl eq_refl)
    as (Hretry & _).
  destruct Hretry as (Hstep & Hdead & _); [lia|reflexivity|reflexivity|].
  eexists. split; [exact Hstep|exact Hdead].
Defined.

(** C10 at work: the call to pod 1 fails with an error that is not a
    connection error; the error is returned and pod 1 is marked dead. *)
Lemma Do_marks_pod_dead_witness :
  exists s',
    Do_attempt 1 plain_client (start world_eof) = Return (inl (TransportError "EOF")) s'
    /\ Pods (st_proxy s') !! 1
       = Some {| IP := "10.0.0.2"; Timestamp := 0; Counter := -1; Free := 9 |}.
Proof.
  destruct (Do_marks_pod_dead_on_any_transport_error 1 plain_client
              (start world_eof) proxy3 1 (pod_url "10.0.0.2") "EOF"
              (mkScript [] 101) eq_refl eq_refl)
    as (Hpod & _).
  destruct Hpod as (s' & pod & _ & Hreturn & Hbefore & Hafter & _); [lia|].
  exists s'. split; [apply Hreturn; reflexivity|].
  rewrite Hafter. injection Hbefore as <-. reflexivity.
Defined.

(** *** The further properties at work *)

(** X1 at work: three updates for pod 1 that arrive out of order. *)
Lemma updateProxyPods_keeps_newest_witness :
  exists pod',
    Pods (updateProxyPods proxy3
            [mkStatUpdate 1 9 2 50; mkStatUpdate 1 4 7 51; mkStatUpdate 0 8 3 52])
      !! 1 = Some pod'
    /\ Counter pod' = 9.
Proof.
  destruct (updateProxyPods_keeps_newest
              [mkStatUpdate 1 9 2 50; mkStatUpdate 1 4 7 51; mkStatUpdate 0 8 3 52]
              proxy3 1 (alive "10.0.0.2" 1 10) eq_refl)
    as (pod' & Hpod' & Hcounter & _).
  exists pod'. split; [exact Hpod'|exact Hcounter].
Defined.

(** X3 at work: a newer and an older update for pod 1, in both orders. *)
Lemma updateProxyPod_commutes_witness :
  updateProxyPod (updateProxyPod proxy3 1 9 2 50) 1 4 7 51
  = updateProxyPod (updateProxyPod proxy3 1 4 7 51) 1 9 2 50.
Proof.
  apply (updateProxyPod_commutes proxy3 1 9 2 50 1 4 7 51). right. discriminate.
Defined.

(** X4 at work. *)
Lemma dead_pod_is_not_selected_witness :
  determineBestProxyOrdinal (markProxyPodAsDead proxy3 1) <> 1
  /\ determineBestProxyOrdinal proxy3 = 1.
Proof.
  split; [|reflexivity]. apply (dead_pod_is_not_selected proxy3 1). lia.
Defined.

(** X6 at work: the table after the list of version 4. *)
Lemma replaced_table_mirrors_list_witness :
  IP <$> Pods (updateProxyList proxy3 addresses3' 4) = addresses3'
  /\ shouldUpdateProxyList (updateProxyList proxy3 addresses3' 4) addresses3' 5 = false.
Proof.
  destruct (replaced_table_mirrors_list proxy3 addresses3' 4 eq_refl)
    as (Hmirror & _ & Hagain).
  split; [exact Hmirror|exact (Hagain 5)].
Defined.

(** X7 at work: after the reset, a response with the version 3 that the
    proxy has leaves the table empty. *)
Lemma empty_table_ignores_stale_version_witness :
  exists p',
    updateKnownProxies (cleared proxy3) (resp_Header (ok_response "1")) 101
    = inr (200, p')
    /\ Pods p' = ∅.
Proof.
  destruct (empty_table_ignores_stale_version (cleared proxy3)
              (resp_Header (ok_response "1")) 101
              (mkProxyHeaders 4 1 3 7 200 addresses3) eq_refl eq_refl)
    as [Hsame _]; [cbn; lia|].
  exists (cleared proxy3). split; [exact Hsame|reflexivity].
Defined.

(** X8 at work. *)
Lemma Do_keeps_client_and_table_bound_witness :
  exists result s',
    Do proxy3 plain_client request world_refused_once = Some (result, s')
    /\ Service (st_proxy s') = service
    /\ 3 <= Version (st_proxy s')
    /\ table_bounded (st_proxy s').
Proof.
  eexists _, _. split; [reflexivity|].
  destruct (Do_keeps_client_and_table_bound (H0:=sample_network) proxy3 plain_client request
              world_refused_once _ _ eq_refl) as (Hservice & _ & Hversion & Hbound).
  split; [exact Hservice|]. split; [exact Hversion|]. apply Hbound.
  split; [cbn; lia|]. intros i pod Hi. cbn.
  destruct (decide (i = 0)) as [->|?]; [lia|].
  destruct (decide (i = 1)) as [->|?]; [lia|].
  destruct (decide (i = 2)) as [->|?]; [lia|].
  unfold proxy3, pods3 in Hi. cbn in Hi.
  rewrite !lookup_insert_ne in Hi by done. by rewrite lookup_empty in Hi.
Defined.

(** X9 at work: three attempts allowed, every connection refused. *)
Lemma Do_calls_client_at_most_Attempts_times_witness :
  exists result s',
    Do proxy3 plain_client request
       (mkScript [inl refused; inl refused; inl refused; inl refused] 100)
    = Some (result, s')
    /\ (length (st_sent s') <= 3)%nat.
Proof.
  apply (Do_calls_client_at_most_Attempts_times (H0:=sample_network) proxy3 plain_client request).
  unfold uint_range, MaxUint64. cbn. lia.
Defined.

(** X10 at work. *)
Lemma Do_returns_selection_error_untouched_witness :
  Do proxy_bad_scheme plain_client request world_ok
  = Some (inl (URLError "missing protocol scheme"),
          mkDoState proxy_bad_scheme request world_ok []).
Proof.
  apply (Do_returns_selection_error_untouched (H0:=sample_network) 3 1 plain_client
           (mkDoState (H0:=sample_network) proxy_bad_scheme request world_ok [])
           proxy_bad_scheme (URLError "missing protocol scheme") eq_refl).
Defined.

(** X11 at work. *)
Lemma Do_attempt_sends_callers_request_witness :
  exists req,
    st_sent (step_state (Do_attempt 1 plain_client (start world_ok))) = [req]
    /\ Method req = "GET"
    /\ req_URL req = pod_url "10.0.0.2".
Proof.
  destruct (Do_attempt_sends_callers_request (H0:=sample_network) 1 plain_client (start world_ok)
              proxy3 1 (pod_url "10.0.0.2") eq_refl)
    as (req & Hsent & _ & Hmethod & Hurl & _).
  exists req. split; [exact Hsent|]. split; [exact Hmethod|exact Hurl].
Defined.

(** X12 at work. *)
Lemma Do_attempt_returns_the_transport_response_witness :
  exists resp' s',
    Do_attempt 1 plain_client (start world_ok) = Return (inr resp') s'
    /\ exists resp : Response,
         StatusCode resp' = StatusCode resp
         /\ resp_Header resp' !! "Proxy-Status" = resp_Header resp !! "Proxy-Status".
Proof.
  eexists _, _. split; [reflexivity|].
  destruct (Do_attempt_returns_the_transport_response (H0:=sample_network) 1 plain_client
              (start world_ok) _ _ eq_refl)
    as (p1 & ordinal & u & resp & status & _ & _ & _ & Hcode & Hframe).
  exists resp. split; [exact Hcode|]. apply Hframe.
  rewrite !elem_of_cons, elem_of_nil. intros [?|[?|[?|[?|?]]]]; done.
Defined.

(** X13 at work: pod 1 refused the connection; the retry goes to pod 0. *)
Lemma Do_retry_selects_another_pod_witness :
  exists s',
    Do_attempt 1 plain_client (start world_refused_once) = Continue s'
    /\ (determineBestProxy (st_proxy s')).2 = inr (0, pod_url "10.0.0.1")
    /\ forall (p2 : Proxy) ordinal' (u' : SimpleURL),
         determineBestProxy (st_proxy s') = (p2, inr (ordinal', u')) -> ordinal' <> 1.
Proof.
  eexists. split; [reflexivity|]. split; [reflexivity|].
  apply (Do_retry_selects_another_pod (H0:=sample_network) 1 plain_client (start world_refused_once) _
           proxy3 1 (pod_url "10.0.0.2") eq_refl eq_refl).
Defined.

(** X15 at work. *)
Lemma Ensure_succeeds_only_on_Proxy_Status_200_witness :
  exists p' w' req,
    Ensure proxy3 plain_client 20 world_ok = (None, p', w', [req])
    /\ req_Header req = {["Proxy-Ensure-Requests" := ["20"]]}.
Proof.
  eexists _, _, _. split; [reflexivity|].
  destruct (Ensure_succeeds_only_on_Proxy_Status_200 (H0:=sample_network) proxy3
              plain_client 20 world_ok _ _ _ eq_refl)
    as (req & resp & Hsent & _ & _ & Hheader & _).
  injection Hsent as Hreq. subst req. exact Hheader.
Defined.

(** X16 at work: the transport fails; no pod of the table is marked. *)
Lemma Ensure_failure_marks_no_pod_witness :
  exists p' w' sent,
    Ensure proxy3 plain_client 20 world_eof
    = (Some (TransportError "EOF"), p', w', sent)
    /\ p' = proxy3.
Proof.
  eexists _, _, _. split; [reflexivity|].
  destruct (Ensure_failure_marks_no_pod (H0:=sample_network) proxy3 plain_client 20
              world_eof (TransportError "EOF") _ _ _ eq_refl) as (_ & Hsame & _).
  apply Hsame. intros text. discriminate.
Defined.

(** X18 at work: no option given. *)
Lemma NewWithConfig_fills_defaults_witness :
  NewWithConfig "http://proxy:80" (config 0) = inr fresh_proxy
  /\ Attempts (ProxyConfig fresh_proxy) = MaxUint32
  /\ determineBestProxy fresh_proxy = (fresh_proxy, inr (-1, service)).
Proof.
  split; [reflexivity|].
  destruct (NewWithConfig_fills_defaults "http://proxy:80" (config 0) fresh_proxy
              eq_refl)
    as (_ & _ & _ & _ & _ & Hattempts & _ & _ & _ & Hfirst).
  split; [exact Hattempts|exact Hfirst].
Defined.

(** X19 at work: one sender, pod 1 goes from 10 free to 9. *)
Lemma predicted_decrements_free_by_senders_witness :
  Pods (predicted proxy3 1) !! 1 = Some (alive "10.0.0.2" 1 9).
Proof.
  destruct (predicted_decrements_free_by_senders proxy3 1 (alive "10.0.0.2" 1 10))
    as (Hpod & _); [lia|reflexivity|unfold MaxInt64; cbn; lia
                   |unfold MaxInt64; cbn; lia|].
  exact Hpod.
Defined.

End OnSample.
